(** * model_server: client utilities and the version-resolution contract

    A shallow embedding of [example_client/client_utils.py]
    ([print_statistics], [prepare_certs]) and of the checks made by
    [tests/functional/test_model_versions_handling.py].

    Numbers.  The Python code works on IEEE 754 doubles through numpy.  A
    finite double is kept as its exact value, a rational ([Q]); the three
    special values ([nan], [inf], [-inf]) are constructors, because numpy
    returns them instead of raising.  Two sets of operations work on these
    values:

    - exact arithmetic ([py_round2], [py_div], module [np]): the formulas
      of the report taken over the rationals, with the square root of
      [np.std] kept symbolic.  Which lines are written, in which order, and
      which error ends a run on an empty sequence does not depend on
      rounding, and is stated on these definitions; a batch size too large
      for a double is an error only in the double arithmetic below;

    - double arithmetic (module [f64]): every operation rounds its exact
      result to the nearest double, ties to even ([rnd]: 53 significant
      bits, subnormals from [2^-1074], overflow to [inf] from [2^1024]),
      and the statistics follow numpy's algorithms: pairwise summation in
      blocks of eight accumulators, [a + (b - a) * t] or
      [b - (b - a) * (1 - t)] for the percentile, two passes for the
      variance, [rint(x * 100) / 100] for [round(x, 2)].  What the report
      shows for given samples is stated on these definitions.

    Samples are elapsed times in milliseconds: finite doubles that are not
    negative.  The sign of a zero is not modelled. *)

From Stdlib Require Import ZArith QArith Qround Qabs Lia Lqa List String Ascii Bool.
From Stdlib Require Import DecimalString Sorted Permutation SpecFloat Qpower Qreduction.
From stdpp Require Import base option gmap strings.
Import ListNotations.

Local Open Scope Z_scope.

(** ** Exceptions and results *)

Inductive exn :=
| ValueError (msg : string)
| IndexError (msg : string)
| OverflowError (msg : string)
| FileNotFoundError (filename : string)
| PermissionError (filename : string)
| IsADirectoryError (filename : string).

Inductive result (A : Type) :=
| Ok (a : A)
| Raise (e : exn).
Arguments Ok {A} a.
Arguments Raise {A} e.

(** A computation over a state [St] (the lines written to standard output,
    or the log of file-system calls) that may raise. *)
Definition M (St A : Type) : Type := St -> St * result A.

Definition ret {St A} (a : A) : M St A := fun s => (s, Ok a).

Definition bind {St A B} (m : M St A) (k : A -> M St B) : M St B :=
  fun s => match m s with
           | (s', Ok a) => k a s'
           | (s', Raise e) => (s', Raise e)
           end.

Definition lift {St A} (r : result A) : M St A := fun s => (s, r).

Declare Scope py_scope.
Delimit Scope py_scope with py.
Notation "x <- m ;; k" := (bind m (fun x => k))
  (at level 100, m at next level, right associativity) : py_scope.
Notation "m ;;; k" := (bind m (fun _ => k))
  (at level 100, right associativity) : py_scope.

(** ** Doubles *)

Inductive float :=
| Rat (q : Q)          (* a finite value *)
| Inf (negative : bool)
| NaN.

(** The value [sqrt(v)], as [np.std] returns it. *)
Inductive surd :=
| Sqrt (v : float).

(** Nearest integer, ties to the even one. *)
Definition round_half_even (x : Q) : Z :=
  let f := Qfloor x in
  match (x - inject_Z f ?= 1 # 2)%Q with
  | Lt => f
  | Gt => f + 1
  | Eq => if Z.even f then f else f + 1
  end.

(** Nearest integer to the square root of [y], for [0 <= y]. *)
Definition round_sqrt (y : Q) : Z :=
  let n := Z.sqrt (Qfloor y) in
  match (y ?= (inject_Z n + (1 # 2)) * (inject_Z n + (1 # 2)))%Q with
  | Lt => n
  | Gt => n + 1
  | Eq => if Z.even n then n else n + 1
  end.

(** [x] in hundredths, rounded: the integer [h] with [round(x, 2) = h/100]. *)
Definition hundredths (x : Q) : Z := round_half_even (x * 100)%Q.
Definition root_hundredths (x : Q) : Z := round_sqrt (x * 10000)%Q.

(** [round(x, 2)] in exact arithmetic: the nearest multiple of 0.01. *)
Definition py_round2 (x : float) : float :=
  match x with
  | Rat q => Rat (inject_Z (hundredths q) / 100)%Q
  | Inf b => Inf b
  | NaN => NaN
  end.

(** [round(sqrt(v), 2)] in exact arithmetic. *)
Definition py_round2_sqrt (x : surd) : float :=
  match x with
  | Sqrt (Rat q) =>
      if Qle_bool 0 q then Rat (inject_Z (root_hundredths q) / 100)%Q else NaN
  | Sqrt (Inf false) => Inf false
  | Sqrt (Inf true) => NaN
  | Sqrt NaN => NaN
  end.

(** [n / x] for a Python int [n] and a numpy double [x]: numpy warns on a
    zero divisor and returns [inf] or [nan], it does not raise. *)
Definition py_div (n : Z) (x : float) : float :=
  match x with
  | Rat q =>
      if Qeq_bool q 0 then
        (if n =? 0 then NaN else Inf (n <? 0))
      else Rat (inject_Z n / q)%Q
  | Inf _ => Rat 0
  | NaN => NaN
  end.

(** The order of doubles: [-inf] below and [inf] above every finite value,
    [nan] compared with anything is false. *)
Definition float_le (x y : float) : Prop :=
  match x, y with
  | NaN, _ | _, NaN => False
  | Inf true, _ => True
  | _, Inf false => True
  | Rat p, Rat q => (p <= q)%Q
  | _, _ => False
  end.

Definition float_lt (x y : float) : Prop :=
  match x, y with
  | NaN, _ | _, NaN => False
  | Inf true, Inf true => False
  | Inf true, _ => True
  | Inf false, _ => False
  | Rat _, Inf false => True
  | Rat p, Rat q => (p < q)%Q
  | Rat _, Inf true => False
  end.

(** *** ['{:.2f}'.format(x)] *)

Definition string_of_Z (n : Z) : string := NilZero.string_of_int (Z.to_int n).

Definition two_digits (n : Z) : string :=
  (string_of_Z (n / 10) ++ string_of_Z (n mod 10))%string.

Definition fmt_hundredths (h : Z) : string :=
  let sign : string := if h <? 0 then "-" else "" in
  let a := Z.abs h in
  (sign ++ string_of_Z (a / 100) ++ "." ++ two_digits (a mod 100))%string.

Definition format_2f (x : float) : string :=
  match x with
  | Rat q => fmt_hundredths (hundredths q)
  | Inf b => if b then "-inf" else "inf"
  | NaN => "nan"
  end.

(** ** numpy

    The functions of numpy that [print_statistics] calls, on a Python list
    of finite doubles, with numpy's defaults ([ddof=0], linear
    interpolation), in exact arithmetic.  On an empty list [np.average],
    [np.median], [np.std] and [np.var] warn and return [nan]; [np.max] and
    [np.min] raise [ValueError] and [np.percentile] raises [IndexError]. *)

Module np.

Fixpoint insert_sorted (x : Q) (l : list Q) : list Q :=
  match l with
  | [] => [x]
  | y :: l' => if Qle_bool x y then x :: l else y :: insert_sorted x l'
  end.

Definition sort (l : list Q) : list Q := foldr insert_sorted [] l.

Definition sum (l : list Q) : Q := foldr Qplus 0%Q l.

Definition size (l : list Q) : Q := inject_Z (Z.of_nat (length l)).

Definition mean (l : list Q) : Q := (sum l / size l)%Q.

Definition item (l : list Q) (i : nat) : Q := nth i l 0%Q.

(** The statistics of a non-empty list, as exact values. *)

Definition median_of (a : list Q) : Q :=
  let s := sort a in
  let n := length a in
  if Nat.even n
  then mean [item s (n / 2 - 1); item s (n / 2)]
  else item s (n / 2).

Definition Qmax (x y : Q) : Q := if Qle_bool x y then y else x.
Definition Qmin (x y : Q) : Q := if Qle_bool x y then x else y.

Definition amax_of (x : Q) (l : list Q) : Q := fold_left Qmax l x.
Definition amin_of (x : Q) (l : list Q) : Q := fold_left Qmin l x.

(** The value at the virtual index [q/100 * (n-1)] of the sorted data,
    interpolated linearly between its two neighbours. *)
Definition percentile_of (a : list Q) (q : Q) : Q :=
  let s := sort a in
  let n := Z.of_nat (length a) in
  let virtual := (q / 100 * inject_Z (n - 1))%Q in
  let lo := Qfloor virtual in
  let hi := Z.min (lo + 1) (n - 1) in
  let gamma := (virtual - inject_Z lo)%Q in
  let x := item s (Z.to_nat lo) in
  let y := item s (Z.to_nat hi) in
  (x + (y - x) * gamma)%Q.

(** The mean of the squared deviations from the mean. *)
Definition var_of (a : list Q) : Q :=
  let m := mean a in
  mean (map (fun x => (x - m) * (x - m))%Q a).

(** The functions as Python sees them. *)

Definition average (a : list Q) : result float :=
  match a with
  | [] => Ok NaN
  | _ => Ok (Rat (mean a))
  end.

Definition median (a : list Q) : result float :=
  match a with
  | [] => Ok NaN
  | _ => Ok (Rat (median_of a))
  end.

Definition max (a : list Q) : result float :=
  match a with
  | [] => Raise (ValueError
      "zero-size array to reduction operation maximum which has no identity")
  | x :: l => Ok (Rat (amax_of x l))
  end.

Definition min (a : list Q) : result float :=
  match a with
  | [] => Raise (ValueError
      "zero-size array to reduction operation minimum which has no identity")
  | x :: l => Ok (Rat (amin_of x l))
  end.

Definition percentile (a : list Q) (q : Q) : result float :=
  if negb (Qle_bool 0 q && Qle_bool q 100) then
    Raise (ValueError "Percentiles must be in the range [0, 100]")
  else
    match a with
    | [] => Raise (IndexError
              "index -1 is out of bounds for axis 0 with size 0")
    | _ => Ok (Rat (percentile_of a q))
    end.

Definition var (a : list Q) : result float :=
  match a with
  | [] => Ok NaN
  | _ => Ok (Rat (var_of a))
  end.

(** [np.std(a)]: the square root of [np.var(a)]. *)
Definition std (a : list Q) : result surd :=
  match var a with
  | Ok v => Ok (Sqrt v)
  | Raise e => Raise e
  end.

End np.

(** ** example_client/client_utils.py: print_statistics *)

(** Standard output: the strings written, one per call of [print]. *)
Definition stdout := list string.

Definition print (s : string) : M stdout unit :=
  fun out => (out ++ [s], Ok tt).

(** ['pre{:.2f}mid{:.2f}post'.format(a, b)] and ['pre{:.2f}'.format(a)] *)
Definition format2 (pre mid post : string) (a b : float) : string :=
  (pre ++ format_2f a ++ mid ++ format_2f b ++ post)%string.

Definition format1 (pre : string) (a : float) : string :=
  (pre ++ format_2f a)%string.

Definition newline : string := String (ascii_of_nat 10) EmptyString.

Local Open Scope py_scope.

Definition print_statistics (processing_times : list Q) (batch_size : Z)
  : M stdout unit :=
  print (newline ++ "processing time for all iterations") ;;;
  t <- lift (np.average processing_times) ;;
  d <- lift (np.average processing_times) ;;
  print (format2 "average time: " " ms; average speed: " " fps"
           (py_round2 t) (py_round2 (py_div (1000 * batch_size) d))) ;;;
  t <- lift (np.median processing_times) ;;
  d <- lift (np.median processing_times) ;;
  print (format2 "median time: " " ms; median speed: " " fps"
           (py_round2 t) (py_round2 (py_div (1000 * batch_size) d))) ;;;
  t <- lift (np.max processing_times) ;;
  d <- lift (np.max processing_times) ;;
  print (format2 "max time: " " ms; min speed: " " fps"
           (py_round2 t) (py_round2 (py_div (1000 * batch_size) d))) ;;;
  t <- lift (np.min processing_times) ;;
  d <- lift (np.min processing_times) ;;
  print (format2 "min time: " " ms; max speed: " " fps"
           (py_round2 t) (py_round2 (py_div (1000 * batch_size) d))) ;;;
  t <- lift (np.percentile processing_times 90) ;;
  d <- lift (np.percentile processing_times 90) ;;
  print (format2 "time percentile 90: " " ms; speed percentile 90: " " fps"
           (py_round2 t) (py_round2 (py_div (1000 * batch_size) d))) ;;;
  t <- lift (np.percentile processing_times 50) ;;
  d <- lift (np.percentile processing_times 50) ;;
  print (format2 "time percentile 50: " " ms; speed percentile 50: " " fps"
           (py_round2 t) (py_round2 (py_div (1000 * batch_size) d))) ;;;
  s <- lift (np.std processing_times) ;;
  print (format1 "time standard deviation: " (py_round2_sqrt s)) ;;;
  v <- lift (np.var processing_times) ;;
  print (format1 "time variance: " (py_round2 v)).

(** *** What the report holds *)

Definition header : string :=
  (newline ++ "processing time for all iterations")%string.

Definition max_of_empty : exn :=
  ValueError "zero-size array to reduction operation maximum which has no identity".

(** The statistics of the data, unrounded. *)
Definition the_max (a : list Q) : Q :=
  match a with
  | [] => 0
  | x :: l => np.amax_of x l
  end.

Definition the_min (a : list Q) : Q :=
  match a with
  | [] => 0
  | x :: l => np.amin_of x l
  end.

(** The throughput for a time [t]: [1000 * batch_size / t]. *)
Definition speed (batch_size : Z) (t : Q) : float :=
  py_div (1000 * batch_size) (Rat t).

(** A line of the report: the time [t] and the throughput computed from
    [t], each shown with two decimals. *)
Definition stat_line (pre mid post : string) (batch_size : Z) (t : Q) : string :=
  format2 pre mid post (Rat t) (speed batch_size t).

Definition report (a : list Q) (batch_size : Z) : list string :=
  [ header;
    stat_line "average time: " " ms; average speed: " " fps"
      batch_size (np.mean a);
    stat_line "median time: " " ms; median speed: " " fps"
      batch_size (np.median_of a);
    stat_line "max time: " " ms; min speed: " " fps"
      batch_size (the_max a);
    stat_line "min time: " " ms; max speed: " " fps"
      batch_size (the_min a);
    stat_line "time percentile 90: " " ms; speed percentile 90: " " fps"
      batch_size (np.percentile_of a 90);
    stat_line "time percentile 50: " " ms; speed percentile 50: " " fps"
      batch_size (np.percentile_of a 50);
    format1 "time standard deviation: "
      (py_round2_sqrt (Sqrt (Rat (np.var_of a))));
    format1 "time variance: " (Rat (np.var_of a)) ].

(** ** example_client/client_utils.py: prepare_certs *)

Definition bytes := list Byte.byte.

(** What a path names on disk.  A path that is not in the map does not
    exist. *)
Inductive node :=
| File (content : bytes)
| Denied                    (* exists, no read permission *)
| Directory.

Abbreviation filesystem := (gmap string node).

(** The calls made to the file system, in order. *)
Inductive syscall :=
| SysOpen (path : string)
| SysRead (path : string)
| SysClose (path : string).

Definition fslog := list syscall.

(** The exception [open(path, 'rb')] raises, if any. *)
Definition open_error (fs : filesystem) (path : string) : option exn :=
  match fs !! path with
  | Some (File _) => None
  | Some Denied => Some (PermissionError path)
  | Some Directory => Some (IsADirectoryError path)
  | None => Some (FileNotFoundError path)
  end.

(** An open file: its path and what is left to read. *)
Definition handle : Type := string * bytes.

Definition open_rb (fs : filesystem) (path : string) : M fslog handle :=
  fun log =>
    match fs !! path with
    | Some (File content) => (log ++ [SysOpen path], Ok (path, content))
    | Some Denied => (log ++ [SysOpen path], Raise (PermissionError path))
    | Some Directory => (log ++ [SysOpen path], Raise (IsADirectoryError path))
    | None => (log ++ [SysOpen path], Raise (FileNotFoundError path))
    end.

Definition read (f : handle) : M fslog bytes :=
  fun log => (log ++ [SysRead (fst f)], Ok (snd f)).

Definition close (f : handle) : M fslog unit :=
  fun log => (log ++ [SysClose (fst f)], Ok tt).

(** [with open(path, 'rb') as f: body]: the handle is closed when the body is
    left, whether it returned or raised. *)
Definition with_open {A} (fs : filesystem) (path : string)
    (body : handle -> M fslog A) : M fslog A :=
  f <- open_rb fs path ;;
  fun log =>
    match body f log with
    | (log', Ok a) => (close f ;;; ret a) log'
    | (log', Raise e) => (close f ;;; lift (Raise e)) log'
    end.

Definition prepare_certs (fs : filesystem)
    (server_cert client_key client_ca : option string)
  : M fslog (option bytes * option bytes * option bytes) :=
  server_cert <-
    match server_cert with
    | Some path => b <- with_open fs path (fun f => read f) ;; ret (Some b)
    | None => ret None
    end ;;
  client_key <-
    match client_key with
    | Some path => b <- with_open fs path (fun key => read key) ;; ret (Some b)
    | None => ret None
    end ;;
  client_ca <-
    match client_ca with
    | Some path => b <- with_open fs path (fun ca => read ca) ;; ret (Some b)
    | None => ret None
    end ;;
  ret (server_cert, client_key, client_ca).

Definition disk : filesystem :=
  <[ "server.pem"%string := File [Byte.x01; Byte.x02] ]>
  (<[ "client.key"%string := File [Byte.xff] ]>
  (<[ "locked.pem"%string := Denied ]> ∅)).

(** One of the three arguments of [prepare_certs]: read the file if a path
    is given. *)
Definition load (fs : filesystem) (path : option string) : M fslog (option bytes) :=
  match path with
  | Some path => b <- with_open fs path (fun f => read f) ;; ret (Some b)
  | None => ret None
  end.

(** What the result holds for an argument: nothing when no path was given,
    else the content of the file of that path. *)
Definition slot_ok (fs : filesystem) (path : option string) (got : option bytes)
  : Prop :=
  match path with
  | None => got = None
  | Some p => exists content, fs !! p = Some (File content) /\ got = Some content
  end.

(** The three slots, and the one whose [open] fails first. *)
Inductive slot := ServerCert | ClientKey | ClientCa.

Definition cannot_open (fs : filesystem) (path : option string) : bool :=
  match path with
  | Some p => bool_decide (is_Some (open_error fs p))
  | None => false
  end.

Definition failing_slot (fs : filesystem) (sc ck ca : option string)
  : option slot :=
  if cannot_open fs sc then Some ServerCert
  else if cannot_open fs ck then Some ClientKey
  else if cannot_open fs ca then Some ClientCa
  else None.

Definition slot_path (k : slot) (sc ck ca : option string) : option string :=
  match k with
  | ServerCert => sc
  | ClientKey => ck
  | ClientCa => ca
  end.

(** [e.filename] *)
Definition exn_filename (e : exn) : option string :=
  match e with
  | ValueError _ | IndexError _ | OverflowError _ => None
  | FileNotFoundError f | PermissionError f | IsADirectoryError f => Some f
  end.

(** The calls that reading one argument makes when its file can be opened,
    and the bytes it then yields. *)
Definition calls_of (path : option string) : fslog :=
  match path with
  | Some p => [SysOpen p; SysRead p; SysClose p]
  | None => []
  end.

Definition file_bytes (fs : filesystem) (path : option string) : option bytes :=
  match path with
  | Some p => match fs !! p with
              | Some (File content) => Some content
              | _ => None
              end
  | None => None
  end.

(** The calls made for the slots that come before slot [k]. *)
Definition calls_before (k : slot) (sc ck ca : option string) : fslog :=
  match k with
  | ServerCert => []
  | ClientKey => calls_of sc
  | ClientCa => calls_of sc ++ calls_of ck
  end.

(** ** The version-resolution contract

    The serving endpoint is not part of the client sources; the tests of
    [tests/functional/test_model_versions_handling.py] only talk to it. *)

Module Versions.

(** Modelled from the spec: the lifecycle states of a version
    ([utils.models_utils.ModelVersionState] is not among the sources). *)
Inductive ModelVersionState := LOADING | AVAILABLE | LOAD_FAILED.

(** Modelled from the spec: the error code of a status entry
    ([utils.models_utils.ErrorCode] is not among the sources). *)
Inductive ErrorCode := OK | UNKNOWN.

(** [l[i]] of Python: a negative index counts from the end. *)
Definition py_index {A} (l : list A) (i : Z) : option A :=
  if i <? 0 then
    (if Z.of_nat (length l) + i <? 0 then None
     else l !! Z.to_nat (Z.of_nat (length l) + i))
  else l !! Z.to_nat i.

(** Modelled from the spec: the application-level error of the server. *)
Inductive server_error := VERSION_NOT_FOUND.

Definition state_eqb (a b : ModelVersionState) : bool :=
  match a, b with
  | LOADING, LOADING | AVAILABLE, AVAILABLE | LOAD_FAILED, LOAD_FAILED => true
  | _, _ => false
  end.

Definition code_eqb (a b : ErrorCode) : bool :=
  match a, b with
  | OK, OK | UNKNOWN, UNKNOWN => true
  | _, _ => false
  end.

(** The fields of a status entry that the tests read:
    [version_status.version], [.state], [.status.error_code] and
    [.status.error_message]. *)
Record Status := { error_code : ErrorCode; error_message : string }.

Record ModelVersionStatus := {
  version : Z;
  state : ModelVersionState;
  status : Status
}.

(** Modelled from the spec: one tracked version of a model, with its id, its
    lifecycle state, its error code and the shape of the tensor it outputs. *)
Record tracked := {
  t_version : Z;
  t_state : ModelVersionState;
  t_error_code : ErrorCode;
  t_output_shape : list Z
}.

Section Contract.

(** [ERROR_MESSAGE[state][code]] of [utils.models_utils], which is not
    among the sources: the message the server attaches to a state. *)
Variable ERROR_MESSAGE : ModelVersionState -> ErrorCode -> string.

(** Modelled from the spec: the versions the server tracks for one model
    name, in the order it reports them. *)
Definition server := list tracked.

(** Modelled from the spec: a version is served when its state is
    AVAILABLE. *)
Definition is_available (t : tracked) : bool := state_eqb (t_state t) AVAILABLE.

(** Modelled from the spec: the default version is the one with the
    maximum numeric id among the AVAILABLE versions. *)
Definition default_version (s : server) : option tracked :=
  foldr (fun t best =>
           if is_available t then
             match best with
             | Some b => if t_version b <? t_version t then Some t else Some b
             | None => Some t
             end
           else best) None s.

(** Modelled from the spec: an explicit version is served if it is
    AVAILABLE and is VERSION_NOT_FOUND otherwise; no version resolves to
    the default version.  (With no AVAILABLE version at all the spec names
    no outcome; the request fails here.) *)
Definition resolve (s : server) (requested : option Z)
  : tracked + server_error :=
  match requested with
  | Some v =>
      match List.find (fun t => (t_version t =? v) && is_available t) s with
      | Some t => inl t
      | None => inr VERSION_NOT_FOUND
      end
  | None =>
      match default_version s with
      | Some t => inl t
      | None => inr VERSION_NOT_FOUND
      end
  end.

(** Modelled from the spec: the status entry of a tracked version. *)
Definition status_of (t : tracked) : ModelVersionStatus :=
  {| version := t_version t;
     state := t_state t;
     status := {| error_code := t_error_code t;
                  error_message :=
                    ERROR_MESSAGE (t_state t) (t_error_code t) |} |}.

(** Modelled from the spec: a status request without a version returns
    an entry for every tracked version; with a version, the entry of that
    version. *)
Definition GetModelStatus (s : server) (requested : option Z)
  : list ModelVersionStatus + server_error :=
  match requested with
  | None => inl (map status_of s)
  | Some v =>
      match resolve s (Some v) with
      | inl t => inl [status_of t]
      | inr e => inr e
      end
  end.

(** Modelled from the spec: inference runs on the resolved version; the
    output has that version's shape. *)
Definition infer_output_shape (s : server) (requested : option Z)
  : list Z + server_error :=
  match resolve s requested with
  | inl t => inl (t_output_shape t)
  | inr e => inr e
  end.

(** Modelled from the spec: a metadata request is answered by the
    resolved version, with its id and the shape of its output. *)
Definition GetModelMetadata (s : server) (requested : option Z)
  : (Z * list Z) + server_error :=
  match resolve s requested with
  | inl t => inl (t_version t, t_output_shape t)
  | inr e => inr e
  end.

(** [test_get_model_status]: [true] when every assertion holds. *)
Definition test_get_model_status (s : server) (version : option Z) : bool :=
  match GetModelStatus s version with
  | inr _ => false
  | inl versions_statuses =>
      match versions_statuses with
      | [] => false
      | version_status :: _ =>
          (match version with
           | None => (length versions_statuses =? 2)%nat
           | Some v => Versions.version version_status =? v
           end)
          && state_eqb (state version_status) AVAILABLE
          && code_eqb (error_code (status version_status)) OK
          && String.eqb (error_message (status version_status))
               (ERROR_MESSAGE AVAILABLE OK)
      end
  end.

(** [test_run_inference]: [PVBFaceDetection] lists the expected model
    information per version, [PVBFaceDetectionV2] is the one expected
    when no version is given; only the output shape is compared. *)
Definition test_run_inference (PVBFaceDetection : list (list Z))
    (PVBFaceDetectionV2 : list Z) (s : server) (version : option Z) : bool :=
  let model_info :=
    match version with
    | None => Some PVBFaceDetectionV2
    | Some v => py_index PVBFaceDetection (v - 1)
    end in
  match model_info, infer_output_shape s version with
  | Some output_shape, inl shape => bool_decide (shape = output_shape)
  | _, _ => false
  end.

End Contract.

(** The model of the tests, [pvb_face_multi_version]: versions 1 and 2,
    both AVAILABLE. *)
Definition two_versions (shape1 shape2 : list Z) : server :=
  [ {| t_version := 1; t_state := AVAILABLE; t_error_code := OK;
       t_output_shape := shape1 |};
    {| t_version := 2; t_state := AVAILABLE; t_error_code := OK;
       t_output_shape := shape2 |} ].

End Versions.

(** ** IEEE 754 double arithmetic

    The definitions above compute with exact rationals.  What the program
    prints is fixed by double arithmetic: every operation returns the exact
    result rounded to the nearest double, ties to the even significand.
    Here a finite double is kept as its exact value, [rnd] is that rounding,
    and module [f64] holds the operations, numpy's algorithms on them and
    [print_statistics] as the program runs it.  The sign of zero is not
    modelled. *)

Definition pow2 (e : Z) : Q := (2 ^ e)%Q.

(** [floor (log2 x)], for [0 < x]. *)
Definition ilog2 (x : Q) : Z :=
  let x := Qred x in
  let c := Z.log2 (Qnum x) - Z.log2 (Zpos (Qden x)) in
  if Qle_bool (pow2 c) x then c else c - 1.

(** The exponent of the last bit of the double nearest to [x]: 53 bits of
    significand, and no exponent below that of the subnormal doubles. *)
Definition ulp_exp (x : Q) : Z := Z.max (ilog2 (Qabs x) - 52) (-1074).

(** The nearest multiple of the last bit: the double nearest to [x] if the
    exponent had no upper bound. *)
Definition nearest (x : Q) : Q :=
  let e := ulp_exp x in
  (inject_Z (round_half_even (x / pow2 e)) * pow2 e)%Q.

(** The double nearest to [x]; [inf] from [2^1024] on. *)
Definition rnd (x : Q) : float :=
  if Qeq_bool x 0 then Rat 0
  else if Qle_bool (pow2 1024) (Qabs (nearest x)) then Inf (Qnum x <? 0)
  else Rat (Qred (nearest x)).

(** The double nearest to the square root of [v], for [0 < v]. *)
Definition rnd_sqrt (v : Q) : float :=
  let e := Z.max (ilog2 v / 2 - 52) (-1074) in
  Rat (Qred (inject_Z (round_sqrt (v / pow2 (2 * e))) * pow2 e)).

(** A finite double, given by its exact value. *)
Definition is_double (x : Q) : Prop := exists v, rnd x = Rat v /\ (v == x)%Q.

Module f64.

Definition neg (x : float) : float :=
  match x with
  | Rat p => Rat (- p)
  | Inf b => Inf (negb b)
  | NaN => NaN
  end.

Definition add (x y : float) : float :=
  match x, y with
  | NaN, _ | _, NaN => NaN
  | Inf a, Inf b => if Bool.eqb a b then Inf a else NaN
  | Inf a, Rat _ => Inf a
  | Rat _, Inf b => Inf b
  | Rat p, Rat q => rnd (p + q)
  end.

Definition sub (x y : float) : float := add x (neg y).

Definition mul (x y : float) : float :=
  match x, y with
  | NaN, _ | _, NaN => NaN
  | Inf a, Inf b => Inf (xorb a b)
  | Inf a, Rat q | Rat q, Inf a =>
      if Qeq_bool q 0 then NaN else Inf (xorb a (Qnum q <? 0))
  | Rat p, Rat q => rnd (p * q)
  end.

Definition div (x y : float) : float :=
  match x, y with
  | NaN, _ | _, NaN => NaN
  | Inf _, Inf _ => NaN
  | Inf a, Rat q => Inf (xorb a (Qnum q <? 0))
  | Rat _, Inf _ => Rat 0
  | Rat p, Rat q =>
      if Qeq_bool q 0 then
        (if Qeq_bool p 0 then NaN else Inf (Qnum p <? 0))
      else rnd (p / q)
  end.

Definition sqrt (x : float) : float :=
  match x with
  | Rat q =>
      if Qeq_bool q 0 then Rat 0
      else if Qnum q <? 0 then NaN
      else rnd_sqrt q
  | Inf false => Inf false
  | Inf true => NaN
  | NaN => NaN
  end.

(** [np.rint]: the nearest integer, ties to even. *)
Definition rint (x : float) : float :=
  match x with
  | Rat q => Rat (inject_Z (round_half_even q))
  | Inf b => Inf b
  | NaN => NaN
  end.

(** A Python int as a double: numpy raises when it is out of range. *)
Definition of_int (n : Z) : result float :=
  match rnd (inject_Z n) with
  | Inf _ => Raise (OverflowError "int too large to convert to float")
  | v => Ok v
  end.

(** An array length as a double. *)
Definition of_nat (n : nat) : float := rnd (inject_Z (Z.of_nat n)).

(** [round(x, 2)] on a numpy double: [np.rint(x * 100) / 100]. *)
Definition round2 (x : float) : float :=
  div (rint (mul x (Rat 100))) (Rat 100).

(** [n / x] for a Python int [n] and a numpy double [x]. *)
Definition py_div (n : Z) (x : float) : result float :=
  match of_int n with
  | Ok v => Ok (div v x)
  | Raise e => Raise e
  end.

(** *** numpy's algorithms *)

(** [res = 0.; for x in l: res += x] *)
Fixpoint seq_add (res : float) (l : list float) : float :=
  match l with
  | [] => res
  | x :: l' => seq_add (add res x) l'
  end.

(** The eight running sums of a block, fed with [k] more groups of
    eight. *)
Fixpoint add8 (k : nat) (r : list float) (l : list float)
  : list float * list float :=
  match k with
  | O => (r, l)
  | S k' => add8 k' (zip_with add r (firstn 8 l)) (skipn 8 l)
  end.

Definition nth_sum (r : list float) (i : nat) : float := nth i r (Rat 0).

(** A block of 8 to 128 values: eight interleaved running sums, combined
    as a tree, then the values left over one by one. *)
Definition block_sum (l : list float) : float :=
  let n := length l in
  let '(r, rest) := add8 (n / 8 - 1) (firstn 8 l) (skipn 8 l) in
  let res :=
    add (add (add (nth_sum r 0) (nth_sum r 1)) (add (nth_sum r 2) (nth_sum r 3)))
        (add (add (nth_sum r 4) (nth_sum r 5)) (add (nth_sum r 6) (nth_sum r 7)))
  in seq_add res rest.

(** numpy's pairwise summation of a contiguous array of doubles.  A call
    on more than 128 values recurses on two strictly shorter halves, so
    [fuel] as large as the length is never used up. *)
Fixpoint pairwise_sum (fuel : nat) (l : list float) : float :=
  let n := length l in
  if (n <? 8)%nat then seq_add (Rat 0) l
  else if (n <=? 128)%nat then block_sum l
  else
    match fuel with
    | O => NaN
    | S fuel' =>
        let n2 := (n / 2 - (n / 2) mod 8)%nat in
        add (pairwise_sum fuel' (firstn n2 l)) (pairwise_sum fuel' (skipn n2 l))
    end.

(** [np.add.reduce] *)
Definition sum (l : list float) : float := pairwise_sum (length l) l.

(** [np.mean] *)
Definition mean (l : list float) : float := div (sum l) (of_nat (length l)).

Definition asarray (a : list Q) : list float := map Rat a.

Definition average (a : list Q) : result float := Ok (mean (asarray a)).

(** [np.median]: the mean of the one or two middle values of the sorted
    data. *)
Definition median_of (a : list Q) : float :=
  let s := np.sort a in
  let n := length a in
  if Nat.even n
  then mean (asarray (firstn 2 (skipn (n / 2 - 1) s)))
  else mean (asarray (firstn 1 (skipn (n / 2) s))).

Definition median (a : list Q) : result float := Ok (median_of a).

Definition max (a : list Q) : result float := np.max a.
Definition min (a : list Q) : result float := np.min a.

(** numpy's [_lerp(a, b, t)] *)
Definition lerp (a b t : float) : float :=
  let diff_b_a := sub b a in
  match t with
  | Rat g =>
      if Qle_bool (1 # 2) g
      then sub b (mul diff_b_a (sub (Rat 1) t))
      else add a (mul diff_b_a t)
  | _ => add a (mul diff_b_a t)
  end.

(** The value at the virtual index [(n - 1) * quantile] of the sorted data:
    numpy takes the two neighbours of that index, the last value for both
    when the index is the last one, and interpolates with [_lerp]. *)
Definition percentile_of (a : list Q) (quantile : Q) : float :=
  let s := np.sort a in
  let n := length a in
  match mul (of_nat (n - 1)) (Rat quantile) with
  | Rat virtual =>
      let above := Qle_bool (inject_Z (Z.of_nat (n - 1))) virtual in
      let previous :=
        if above then (n - 1)%nat else Z.to_nat (Qfloor virtual) in
      let next := if above then (n - 1)%nat else S previous in
      let previous_index : Z := if above then -1 else Qfloor virtual in
      let gamma := sub (Rat virtual) (Rat (inject_Z previous_index)) in
      lerp (Rat (np.item s previous)) (Rat (np.item s next)) gamma
  | _ => NaN
  end.

(** [q / 100] *)
Definition quantile (q : Z) : float := div (Rat (inject_Z q)) (Rat 100).

(** [np.percentile(a, q)] with the default linear method. *)
Definition percentile (a : list Q) (q : Z) : result float :=
  match quantile q with
  | Rat quantile =>
      if negb (Qle_bool 0 quantile && Qle_bool quantile 1) then
        Raise (ValueError "Percentiles must be in the range [0, 100]")
      else
        match a with
        | [] => Raise (IndexError
                  "index -1 is out of bounds for axis 0 with size 0")
        | _ => Ok (percentile_of a quantile)
        end
  | _ => Raise (ValueError "Percentiles must be in the range [0, 100]")
  end.

(** [np.var] with [ddof=0]: the mean, the squares of the deviations from
    it, their sum divided by the number of values. *)
Definition var_of (l : list float) : float :=
  let arrmean := mean l in
  let x := map (fun v => sub v arrmean) l in
  let x := map (fun d => mul d d) x in
  div (sum x) (of_nat (length l)).

Definition var (a : list Q) : result float := Ok (var_of (asarray a)).

(** [np.std]: the square root of [np.var]. *)
Definition std (a : list Q) : result float := Ok (sqrt (var_of (asarray a))).

(** *** [print_statistics] in double arithmetic *)

Definition print_statistics (processing_times : list Q) (batch_size : Z)
  : M stdout unit :=
  print (newline ++ "processing time for all iterations") ;;;
  t <- lift (average processing_times) ;;
  d <- lift (average processing_times) ;;
  v <- lift (py_div (1000 * batch_size) d) ;;
  print (format2 "average time: " " ms; average speed: " " fps"
           (round2 t) (round2 v)) ;;;
  t <- lift (median processing_times) ;;
  d <- lift (median processing_times) ;;
  v <- lift (py_div (1000 * batch_size) d) ;;
  print (format2 "median time: " " ms; median speed: " " fps"
           (round2 t) (round2 v)) ;;;
  t <- lift (max processing_times) ;;
  d <- lift (max processing_times) ;;
  v <- lift (py_div (1000 * batch_size) d) ;;
  print (format2 "max time: " " ms; min speed: " " fps"
           (round2 t) (round2 v)) ;;;
  t <- lift (min processing_times) ;;
  d <- lift (min processing_times) ;;
  v <- lift (py_div (1000 * batch_size) d) ;;
  print (format2 "min time: " " ms; max speed: " " fps"
           (round2 t) (round2 v)) ;;;
  t <- lift (percentile processing_times 90) ;;
  d <- lift (percentile processing_times 90) ;;
  v <- lift (py_div (1000 * batch_size) d) ;;
  print (format2 "time percentile 90: " " ms; speed percentile 90: " " fps"
           (round2 t) (round2 v)) ;;;
  t <- lift (percentile processing_times 50) ;;
  d <- lift (percentile processing_times 50) ;;
  v <- lift (py_div (1000 * batch_size) d) ;;
  print (format2 "time percentile 50: " " ms; speed percentile 50: " " fps"
           (round2 t) (round2 v)) ;;;
  s <- lift (std processing_times) ;;
  print (format1 "time standard deviation: " (round2 s)) ;;;
  v <- lift (var processing_times) ;;
  print (format1 "time variance: " (round2 v)).

(** The double that a decimal literal of the Python source denotes. *)
Definition literal (x : Q) : Q :=
  match rnd x with
  | Rat v => v
  | _ => 0
  end.

(** *** What the report holds *)

(** A line of the report for the statistic [t], with [n] the double of
    [1000 * batch_size]: the time is [t] rounded, the speed is [n / t]
    rounded. *)
Definition stat_line (pre mid post : string) (n t : float) : string :=
  format2 pre mid post (round2 t) (round2 (div n t)).

Definition report (a : list Q) (n : float) : list string :=
  [ header;
    stat_line "average time: " " ms; average speed: " " fps"
      n (mean (asarray a));
    stat_line "median time: " " ms; median speed: " " fps"
      n (median_of a);
    stat_line "max time: " " ms; min speed: " " fps"
      n (Rat (the_max a));
    stat_line "min time: " " ms; max speed: " " fps"
      n (Rat (the_min a));
    stat_line "time percentile 90: " " ms; speed percentile 90: " " fps"
      n (percentile_of a (literal (9 # 10)));
    stat_line "time percentile 50: " " ms; speed percentile 50: " " fps"
      n (percentile_of a (literal (1 # 2)));
    format1 "time standard deviation: " (round2 (sqrt (var_of (asarray a))));
    format1 "time variance: " (round2 (var_of (asarray a))) ].

End f64.

(** The population variance in the words of the claim: the mean, with
    divisor N, of the squared deviations from the mean. *)
Definition population_variance (a : list Q) : Q :=
  let N := inject_Z (Z.of_nat (List.length a)) in
  let mu := (List.fold_right Qplus 0 a / N)%Q in
  (List.fold_right (fun x acc => (x - mu) * (x - mu) + acc) 0 a / N)%Q.

(** A double of the Standard Library's specification of IEEE arithmetic
    ([SpecFloat]), as the value it stands for. *)
Definition SF2float (x : spec_float) : float :=
  match x with
  | S754_zero _ => Rat 0
  | S754_infinity s => Inf s
  | S754_nan => NaN
  | S754_finite s m e =>
      Rat (Qred (inject_Z (if s then Z.neg m else Z.pos m) * pow2 e))
  end.

Definition SFofZ (n : Z) : spec_float := binary_normalize 53 1024 n 0 false.

(** * Properties *)

(** ** The code on concrete inputs *)

Example format_2f_ex1 : format_2f (Rat (400 # 3)) = "133.33"%string.
Proof. reflexivity. Qed.
Example format_2f_ex2 : format_2f (Rat (5 # 1000)) = "0.00"%string.
Proof. reflexivity. Qed.
Example format_2f_ex3 : format_2f (py_round2_sqrt (Sqrt (Rat 2))) = "1.41"%string.
Proof. reflexivity. Qed.

Example print_statistics_scenario :
  print_statistics [10; 20; 30; 40; 50]%Q 4 [] =
  ([(newline ++ "processing time for all iterations")%string;
    "average time: 30.00 ms; average speed: 133.33 fps";
    "median time: 30.00 ms; median speed: 133.33 fps";
    "max time: 50.00 ms; min speed: 80.00 fps";
    "min time: 10.00 ms; max speed: 400.00 fps";
    "time percentile 90: 46.00 ms; speed percentile 90: 86.96 fps";
    "time percentile 50: 30.00 ms; speed percentile 50: 133.33 fps";
    "time standard deviation: 14.14";
    "time variance: 200.00"]%string, Ok tt).
Proof. vm_compute. reflexivity. Qed.

Example prepare_certs_two_files :
  prepare_certs disk (Some "server.pem"%string) None (Some "client.key"%string) [] =
  ([SysOpen "server.pem"; SysRead "server.pem"; SysClose "server.pem";
    SysOpen "client.key"; SysRead "client.key"; SysClose "client.key"]%string,
   Ok (Some [Byte.x01; Byte.x02], None, Some [Byte.xff])).
Proof. vm_compute. reflexivity. Qed.

Example prepare_certs_denied :
  prepare_certs disk (Some "server.pem"%string) (Some "locked.pem"%string)
    (Some "client.key"%string) [] =
  ([SysOpen "server.pem"; SysRead "server.pem"; SysClose "server.pem";
    SysOpen "locked.pem"]%string,
   Raise (PermissionError "locked.pem")).
Proof. vm_compute. reflexivity. Qed.


(** ** Rounding *)

(** Turns a hypothesis [(x ?= y) = c] into the order fact it stands for. *)
Ltac qcompare H :=
  first [ apply (proj2 (Qeq_alt _ _)) in H
        | apply (proj2 (Qlt_alt _ _)) in H
        | apply (proj2 (Qgt_alt _ _)) in H ].

Section Rounding.

Local Open Scope Q_scope.

Lemma round_half_even_comp (x y : Q) :
  x == y -> round_half_even x = round_half_even y.
Proof.
  intros H. unfold round_half_even.
  rewrite (Qfloor_comp _ _ H).
  rewrite (Qcompare_comp (x - inject_Z (Qfloor y)) (y - inject_Z (Qfloor y))
             (ltac:(rewrite H; reflexivity)) (1 # 2) (1 # 2) (Qeq_refl _)).
  reflexivity.
Qed.

Lemma Qfloor_bounds (x : Q) :
  inject_Z (Qfloor x) <= x /\ x < inject_Z (Qfloor x) + 1.
Proof.
  split; [apply Qfloor_le|].
  pose proof (Qlt_floor x) as H.
  rewrite inject_Z_plus in H. exact H.
Qed.

(** The rounded value is within one half of the argument. *)
Lemma round_half_even_near (x : Q) :
  inject_Z (round_half_even x) - (1 # 2) <= x /\
  x <= inject_Z (round_half_even x) + (1 # 2).
Proof.
  unfold round_half_even.
  destruct (Qfloor_bounds x) as [Hlo Hhi].
  set (f := Qfloor x) in *.
  destruct (x - inject_Z f ?= 1 # 2) eqn:E.
  - qcompare E.
    destruct (Z.even f); rewrite ?inject_Z_plus;
      change (inject_Z 1) with 1; split; lra.
  - qcompare E. split; lra.
  - qcompare E. rewrite inject_Z_plus.
    change (inject_Z 1) with 1. split; lra.
Qed.

Lemma round_half_even_inject_Z (n : Z) : round_half_even (inject_Z n) = n.
Proof.
  unfold round_half_even. rewrite Qfloor_Z.
  replace (inject_Z n - inject_Z n ?= 1 # 2) with Lt; [reflexivity|].
  symmetry. apply (proj1 (Qlt_alt _ _)). lra.
Qed.

Lemma inject_Z_lt_succ (a b : Z) :
  inject_Z a < inject_Z b + 1 -> (a <= b)%Z.
Proof.
  intros H. change 1 with (inject_Z 1) in H.
  rewrite <- inject_Z_plus, <- Zlt_Qlt in H. lia.
Qed.

Lemma round_half_even_mono (x y : Q) :
  x <= y -> (round_half_even x <= round_half_even y)%Z.
Proof.
  intros Hxy.
  assert (Hf : (Qfloor x <= Qfloor y)%Z) by (apply Qfloor_resp_le; exact Hxy).
  unfold round_half_even.
  destruct (Qfloor_bounds x) as [Hxl Hxh].
  destruct (Qfloor_bounds y) as [Hyl Hyh].
  destruct (Z.eq_dec (Qfloor x) (Qfloor y)) as [Heq|Hne].
  - rewrite <- Heq in *. set (f := Qfloor x) in *.
    destruct (x - inject_Z f ?= 1 # 2) eqn:Ex;
      destruct (y - inject_Z f ?= 1 # 2) eqn:Ey;
      qcompare Ex; qcompare Ey;
      destruct (Z.even f); try lia; exfalso; lra.
  - assert (Hlt : (Qfloor x + 1 <= Qfloor y)%Z) by lia.
    destruct (x - inject_Z (Qfloor x) ?= 1 # 2);
      destruct (y - inject_Z (Qfloor y) ?= 1 # 2);
      destruct (Z.even (Qfloor x)); destruct (Z.even (Qfloor y)); lia.
Qed.





End Rounding.

(** ** Running [print_statistics] *)

Lemma bind_print {A} (s : string) (k : unit -> M stdout A) (out : stdout) :
  bind (print s) k out = k tt (out ++ [s]).
Proof. reflexivity. Qed.

Lemma bind_lift_Ok {St A B} (a : A) (k : A -> M St B) (s : St) :
  bind (lift (Ok a)) k s = k a s.
Proof. reflexivity. Qed.






(** ** Median and 50th percentile *)

Section Median.

Local Open Scope Q_scope.

Lemma Qfloor_unique (x : Q) (z : Z) :
  inject_Z z <= x -> x < inject_Z z + 1 -> Qfloor x = z.
Proof.
  intros Hlo Hhi. destruct (Qfloor_bounds x) as [Flo Fhi].
  apply Z.le_antisymm; apply inject_Z_lt_succ; lra.
Qed.

Lemma percentile_50_even (a : list Q) (k : nat) :
  length a = (2 * S k)%nat ->
  np.percentile_of a 50 == np.median_of a.
Proof.
  intros Hn. unfold np.percentile_of, np.median_of. rewrite Hn.
  assert (Hv : 50 / 100 * inject_Z (Z.of_nat (2 * S k) - 1)
               == inject_Z (Z.of_nat k) + (1 # 2)).
  { replace (Z.of_nat (2 * S k) - 1)%Z with (2 * Z.of_nat k + 1)%Z by lia.
    rewrite inject_Z_plus, inject_Z_mult.
    change (inject_Z 2) with 2. change (inject_Z 1) with 1. field. }
  assert (Hf : Qfloor (50 / 100 * inject_Z (Z.of_nat (2 * S k) - 1))
               = Z.of_nat k).
  { apply Qfloor_unique; rewrite Hv; lra. }
  cbv zeta. rewrite Hf, Hv.
  replace (Z.to_nat (Z.of_nat k)) with k by lia.
  replace (Z.to_nat (Z.min (Z.of_nat k + 1) (Z.of_nat (2 * S k) - 1)))
    with (S k) by lia.
  replace (Nat.even (2 * S k)) with true
    by (symmetry; apply Nat.even_spec; exists (S k); reflexivity).
  replace (2 * S k / 2 - 1)%nat with k
    by (rewrite (Nat.mul_comm 2), Nat.div_mul by discriminate; lia).
  replace (2 * S k / 2)%nat with (S k)
    by (rewrite (Nat.mul_comm 2), Nat.div_mul by discriminate; lia).
  unfold np.mean, np.sum, np.size. simpl.
  change (inject_Z 2) with 2. field.
Qed.

Lemma percentile_50_odd (a : list Q) (k : nat) :
  length a = (2 * k + 1)%nat ->
  np.percentile_of a 50 == np.median_of a.
Proof.
  intros Hn. unfold np.percentile_of, np.median_of. rewrite Hn.
  assert (Hv : 50 / 100 * inject_Z (Z.of_nat (2 * k + 1) - 1)
               == inject_Z (Z.of_nat k)).
  { replace (Z.of_nat (2 * k + 1) - 1)%Z with (2 * Z.of_nat k)%Z by lia.
    rewrite inject_Z_mult. change (inject_Z 2) with 2. field. }
  assert (Hf : Qfloor (50 / 100 * inject_Z (Z.of_nat (2 * k + 1) - 1))
               = Z.of_nat k).
  { apply Qfloor_unique; rewrite Hv; lra. }
  cbv zeta. rewrite Hf, Hv.
  replace (Z.to_nat (Z.of_nat k)) with k by lia.
  replace (Nat.even (2 * k + 1)) with false
    by (symmetry; rewrite Nat.add_1_r, Nat.even_succ, <- Nat.negb_even;
        apply negb_false_iff, Nat.even_spec; exists k; reflexivity).
  replace ((2 * k + 1) / 2)%nat with k
    by (apply (Nat.div_unique _ 2 k 1); lia).
  ring.
Qed.

Lemma percentile_50_median (a : list Q) :
  a <> [] -> np.percentile_of a 50 == np.median_of a.
Proof.
  intros Hne.
  destruct (Nat.Even_or_Odd (length a)) as [[k Hk]|[k Hk]].
  - destruct k as [|k].
    + destruct a; [congruence|discriminate].
    + apply (percentile_50_even a k Hk).
  - apply (percentile_50_odd a k Hk).
Qed.

End Median.



(** ** Maximum, minimum and throughput *)

Section Throughput.

Local Open Scope Q_scope.

Lemma Qmax_ge_l (x y : Q) : x <= np.Qmax x y.
Proof.
  unfold np.Qmax. destruct (Qle_bool x y) eqn:E.
  - apply Qle_bool_iff. exact E.
  - apply Qle_refl.
Qed.

Lemma Qmax_ge_r (x y : Q) : y <= np.Qmax x y.
Proof.
  unfold np.Qmax. destruct (Qle_bool x y) eqn:E.
  - apply Qle_refl.
  - destruct (Qlt_le_dec y x) as [H|H]; [apply Qlt_le_weak; exact H|].
    apply Qle_bool_iff in H. congruence.
Qed.

Lemma Qmin_le_l (x y : Q) : np.Qmin x y <= x.
Proof.
  unfold np.Qmin. destruct (Qle_bool x y) eqn:E.
  - apply Qle_refl.
  - destruct (Qlt_le_dec y x) as [H|H]; [apply Qlt_le_weak; exact H|].
    apply Qle_bool_iff in H. congruence.
Qed.

Lemma Qmin_le_r (x y : Q) : np.Qmin x y <= y.
Proof.
  unfold np.Qmin. destruct (Qle_bool x y) eqn:E.
  - apply Qle_bool_iff. exact E.
  - apply Qle_refl.
Qed.

Lemma amax_of_ge (l : list Q) : forall x s,
  In s (x :: l) -> s <= np.amax_of x l.
Proof.
  unfold np.amax_of. induction l as [|y l IH]; intros x s Hin.
  - destruct Hin as [<-|[]]. apply Qle_refl.
  - simpl. destruct Hin as [<-|Hin].
    + apply Qle_trans with (np.Qmax x y); [apply Qmax_ge_l|].
      apply IH. left. reflexivity.
    + destruct Hin as [<-|Hin].
      * apply Qle_trans with (np.Qmax x y); [apply Qmax_ge_r|].
        apply IH. left. reflexivity.
      * apply IH. right. exact Hin.
Qed.

Lemma amin_of_le (l : list Q) : forall x s,
  In s (x :: l) -> np.amin_of x l <= s.
Proof.
  unfold np.amin_of. induction l as [|y l IH]; intros x s Hin.
  - destruct Hin as [<-|[]]. apply Qle_refl.
  - simpl. destruct Hin as [<-|Hin].
    + apply Qle_trans with (np.Qmin x y); [|apply Qmin_le_l].
      apply IH. left. reflexivity.
    + destruct Hin as [<-|Hin].
      * apply Qle_trans with (np.Qmin x y); [|apply Qmin_le_r].
        apply IH. left. reflexivity.
      * apply IH. right. exact Hin.
Qed.

Lemma amax_of_In (l : list Q) : forall x, In (np.amax_of x l) (x :: l).
Proof.
  unfold np.amax_of. induction l as [|y l IH]; intros x.
  - left. reflexivity.
  - simpl. destruct (IH (np.Qmax x y)) as [H|H].
    + rewrite <- H. unfold np.Qmax. destruct (Qle_bool x y); auto.
    + right. right. exact H.
Qed.

Lemma amin_of_In (l : list Q) : forall x, In (np.amin_of x l) (x :: l).
Proof.
  unfold np.amin_of. induction l as [|y l IH]; intros x.
  - left. reflexivity.
  - simpl. destruct (IH (np.Qmin x y)) as [H|H].
    + rewrite <- H. unfold np.Qmin. destruct (Qle_bool x y); auto.
    + right. right. exact H.
Qed.

Lemma the_max_ge (a : list Q) (s : Q) : In s a -> s <= the_max a.
Proof. destruct a as [|x l]; [intros []|apply amax_of_ge]. Qed.

Lemma the_min_le (a : list Q) (s : Q) : In s a -> the_min a <= s.
Proof. destruct a as [|x l]; [intros []|apply amin_of_le]. Qed.

Lemma the_max_In (a : list Q) : a <> [] -> In (the_max a) a.
Proof. destruct a as [|x l]; [congruence|intros _; apply amax_of_In]. Qed.

Lemma the_min_In (a : list Q) : a <> [] -> In (the_min a) a.
Proof. destruct a as [|x l]; [congruence|intros _; apply amin_of_In]. Qed.


End Throughput.

(** ** Variance and standard deviation *)

Section Spread.

Local Open Scope Q_scope.

Lemma size_map (f : Q -> Q) (a : list Q) : np.size (map f a) = np.size a.
Proof. unfold np.size. rewrite length_map. reflexivity. Qed.

End Spread.

(** * The claims about [print_statistics] *)





(** C5 as stated fails for the values the report shows: 1000000 ms and
    2000000 ms are different times whose reported speeds are the same, so
    the reported speed of the smaller time is not the greater one. *)
Lemma reported_throughput_not_strict :
  (1000000 < 2000000)%Q /\
  fst (print_statistics [1000000; 2000000]%Q 1 []) !! 3%nat =
    Some "max time: 2000000.00 ms; min speed: 0.00 fps"%string /\
  fst (print_statistics [1000000; 2000000]%Q 1 []) !! 4%nat =
    Some "min time: 1000000.00 ms; max speed: 0.00 fps"%string /\
  ~ float_lt (py_round2 (speed 1 2000000)) (py_round2 (speed 1 1000000)).
Proof.
  split; [reflexivity|].
  split; [vm_compute; reflexivity|].
  split; [vm_compute; reflexivity|].
  vm_compute. intros H. discriminate H.
Qed.

(** * The claims about [prepare_certs] *)

Lemma prepare_certs_load (fs : filesystem) (sc ck ca : option string) :
  prepare_certs fs sc ck ca =
  (a <- load fs sc ;; b <- load fs ck ;; c <- load fs ca ;; ret (a, b, c)).
Proof. reflexivity. Qed.

Lemma load_None (fs : filesystem) (log : fslog) :
  load fs None log = (log, Ok None).
Proof. reflexivity. Qed.

Lemma load_file (fs : filesystem) (path : string) (content : bytes) (log : fslog) :
  fs !! path = Some (File content) ->
  load fs (Some path) log =
  (log ++ [SysOpen path; SysRead path; SysClose path], Ok (Some content)).
Proof.
  intros Hf. unfold load, with_open, bind, open_rb, read, close, ret.
  rewrite Hf. simpl. rewrite <- !app_assoc. reflexivity.
Qed.

Lemma load_error (fs : filesystem) (path : string) (e : exn) (log : fslog) :
  open_error fs path = Some e ->
  load fs (Some path) log = (log ++ [SysOpen path], Raise e).
Proof.
  unfold open_error, load, with_open, bind, open_rb.
  destruct (fs !! path) as [[c| |]|]; intros H; inversion H; reflexivity.
Qed.

Lemma open_error_None (fs : filesystem) (path : string) :
  open_error fs path = None -> exists content, fs !! path = Some (File content).
Proof.
  unfold open_error. destruct (fs !! path) as [[c| |]|]; try discriminate.
  intros _. exists c. reflexivity.
Qed.

Lemma open_error_file (fs : filesystem) (path : string) (content : bytes) :
  fs !! path = Some (File content) -> open_error fs path = None.
Proof. unfold open_error. intros ->. reflexivity. Qed.

Lemma load_Ok (fs : filesystem) (path : option string) (log log' : fslog)
    (got : option bytes) :
  load fs path log = (log', Ok got) -> slot_ok fs path got.
Proof.
  destruct path as [p|]; unfold slot_ok.
  - destruct (open_error fs p) as [e|] eqn:E.
    + rewrite (load_error fs p e log E). discriminate.
    + destruct (open_error_None fs p E) as [c Hc].
      rewrite (load_file fs p c log Hc). intros H. inversion H. eauto.
  - intros H. inversion H. reflexivity.
Qed.

Lemma load_total (fs : filesystem) (path : option string) (log : fslog) :
  (exists log' got, load fs path log = (log', Ok got)) \/
  (exists p e, path = Some p /\ open_error fs p = Some e /\
               load fs path log = (log ++ [SysOpen p], Raise e)).
Proof.
  destruct path as [p|].
  - destruct (open_error fs p) as [e|] eqn:E.
    + right. exists p, e. rewrite (load_error fs p e log E). auto.
    + left. destruct (open_error_None fs p E) as [c Hc].
      rewrite (load_file fs p c log Hc). eauto.
  - left. rewrite load_None. eauto.
Qed.

Lemma slot_ok_absent (fs : filesystem) (path : option string) (got : option bytes) :
  slot_ok fs path got -> (got = None <-> path = None).
Proof.
  destruct path as [p|]; simpl.
  - intros [c [_ ->]]. split; discriminate.
  - intros ->. split; reflexivity.
Qed.

Lemma prepare_certs_Ok (fs : filesystem) (sc ck ca : option string)
    (log log' : fslog) (a b c : option bytes) :
  prepare_certs fs sc ck ca log = (log', Ok (a, b, c)) ->
  slot_ok fs sc a /\ slot_ok fs ck b /\ slot_ok fs ca c.
Proof.
  rewrite prepare_certs_load. unfold bind at 1.
  destruct (load fs sc log) as [l1 [a'|e]] eqn:E1; [|discriminate].
  unfold bind at 1.
  destruct (load fs ck l1) as [l2 [b'|e]] eqn:E2; [|discriminate].
  unfold bind at 1.
  destruct (load fs ca l2) as [l3 [c'|e]] eqn:E3; [|discriminate].
  unfold ret. intros H. inversion H; subst.
  split; [|split]; eapply load_Ok; eassumption.
Qed.

Lemma load_readable (fs : filesystem) (path : option string) (log : fslog) :
  (forall p, path = Some p -> exists content, fs !! p = Some (File content)) ->
  exists log' got, load fs path log = (log', Ok got).
Proof.
  intros Hr. destruct (load_total fs path log) as [H|[p [e [Hp [He _]]]]].
  - exact H.
  - destruct (Hr p Hp) as [c Hc].
    rewrite (open_error_file fs p c Hc) in He. discriminate.
Qed.

(** C7: when every path that is supplied names a readable file,
    [prepare_certs] returns; and whenever it returns, each slot of the
    triple holds exactly the bytes of the file of its path, and is absent
    exactly when no path was supplied for it. *)
Theorem prepare_certs_returns_file_contents
    (fs : filesystem) (sc ck ca : option string) (log : fslog) :
  ((forall p, In (Some p) [sc; ck; ca] ->
      exists content, fs !! p = Some (File content)) ->
   exists log' r, prepare_certs fs sc ck ca log = (log', Ok r)) /\
  (forall log' a b c,
     prepare_certs fs sc ck ca log = (log', Ok (a, b, c)) ->
     (slot_ok fs sc a /\ slot_ok fs ck b /\ slot_ok fs ca c) /\
     (a = None <-> sc = None) /\
     (b = None <-> ck = None) /\
     (c = None <-> ca = None)).
Proof.
  split.
  - intros Hr. rewrite prepare_certs_load.
    destruct (load_readable fs sc log) as [l1 [a E1]].
    { intros p ->. apply Hr. simpl. auto. }
    destruct (load_readable fs ck l1) as [l2 [b E2]].
    { intros p ->. apply Hr. simpl. auto. }
    destruct (load_readable fs ca l2) as [l3 [c E3]].
    { intros p ->. apply Hr. simpl. auto. }
    exists l3, (a, b, c).
    unfold bind at 1. rewrite E1. unfold bind at 1. rewrite E2.
    unfold bind at 1. rewrite E3. reflexivity.
  - intros log' a b c Hrun.
    destruct (prepare_certs_Ok fs sc ck ca log log' a b c Hrun) as [Ha [Hb Hc]].
    split; [auto|].
    split; [|split]; eapply slot_ok_absent; eassumption.
Qed.

Lemma prepare_certs_returns_file_contents_witness :
  exists log' r,
    prepare_certs disk (Some "server.pem"%string) None
      (Some "client.key"%string) [] = (log', Ok r).
Proof.
  apply (prepare_certs_returns_file_contents disk
           (Some "server.pem"%string) None (Some "client.key"%string) []).
  intros p Hp. simpl in Hp.
  destruct Hp as [Hp|[Hp|[Hp|[]]]]; inversion Hp; subst.
  - exists [Byte.x01; Byte.x02]. vm_compute. reflexivity.
  - exists [Byte.xff]. vm_compute. reflexivity.
Defined.

(** C9: with no path at all, [prepare_certs] returns three absent slots and
    makes no call to the file system. *)
Theorem prepare_certs_no_path (fs : filesystem) (log : fslog) :
  prepare_certs fs None None None log = (log, Ok (None, None, None)).
Proof. reflexivity. Qed.

Lemma open_error_filename (fs : filesystem) (p : string) (e : exn) :
  open_error fs p = Some e -> exn_filename e = Some p.
Proof.
  unfold open_error. destruct (fs !! p) as [[c| |]|]; intros H;
    inversion H; reflexivity.
Qed.

Lemma cannot_open_true (fs : filesystem) (path : option string) :
  cannot_open fs path = true ->
  exists p e, path = Some p /\ open_error fs p = Some e.
Proof.
  destruct path as [p|]; simpl; [|discriminate].
  intros H. apply bool_decide_eq_true in H. destruct H as [e He]. eauto.
Qed.

Lemma cannot_open_false (fs : filesystem) (path : option string) (log : fslog) :
  cannot_open fs path = false ->
  exists log' got, load fs path log = (log', Ok got).
Proof.
  intros H. apply load_readable. intros p ->. simpl in H.
  apply bool_decide_eq_false in H.
  destruct (open_error fs p) as [e|] eqn:E.
  - exfalso. apply H. eauto.
  - apply open_error_None. exact E.
Qed.

(** C8, as the code behaves: when a supplied path cannot be opened,
    [prepare_certs] fails with the error that [open] raises for the first
    such path, in the order server certificate, client key, client CA.  The
    error carries that path; it does not name the slot.  No triple is
    returned, so the failure never becomes an absent slot, and in a triple
    that is returned a slot is absent only if its path was not supplied. *)
Theorem prepare_certs_raises_open_error
    (fs : filesystem) (sc ck ca : option string) (log : fslog) :
  (exists p, In (Some p) [sc; ck; ca] /\ open_error fs p <> None) ->
  (exists k p e log',
     failing_slot fs sc ck ca = Some k /\
     slot_path k sc ck ca = Some p /\
     open_error fs p = Some e /\
     exn_filename e = Some p /\
     prepare_certs fs sc ck ca log = (log', Raise e)) /\
  (forall fs' log0 log' a b c,
     prepare_certs fs' sc ck ca log0 = (log', Ok (a, b, c)) ->
     (a = None -> sc = None) /\ (b = None -> ck = None) /\
     (c = None -> ca = None)).
Proof.
  intros [p0 [Hin Hbad]]. split.
  - rewrite prepare_certs_load. unfold failing_slot.
    destruct (cannot_open fs sc) eqn:C1.
    { destruct (cannot_open_true fs sc C1) as [p [e [-> He]]].
      exists ServerCert, p, e, (log ++ [SysOpen p]).
      repeat split; eauto using open_error_filename.
      unfold bind at 1. rewrite (load_error fs p e log He). reflexivity. }
    destruct (cannot_open_false fs sc log C1) as [l1 [a E1]].
    unfold bind at 1. rewrite E1.
    destruct (cannot_open fs ck) eqn:C2.
    { destruct (cannot_open_true fs ck C2) as [p [e [-> He]]].
      exists ClientKey, p, e, (l1 ++ [SysOpen p]).
      repeat split; eauto using open_error_filename.
      unfold bind at 1. rewrite (load_error fs p e l1 He). reflexivity. }
    destruct (cannot_open_false fs ck l1 C2) as [l2 [b E2]].
    unfold bind at 1. rewrite E2.
    destruct (cannot_open fs ca) eqn:C3.
    { destruct (cannot_open_true fs ca C3) as [p [e [-> He]]].
      exists ClientCa, p, e, (l2 ++ [SysOpen p]).
      repeat split; eauto using open_error_filename.
      unfold bind at 1. rewrite (load_error fs p e l2 He). reflexivity. }
    exfalso.
    assert (Hc : cannot_open fs (Some p0) = true).
    { simpl. apply bool_decide_eq_true.
      destruct (open_error fs p0); [eauto|congruence]. }
    simpl in Hin.
    destruct Hin as [E|[E|[E|[]]]]; rewrite <- E in Hc; congruence.
  - intros fs' log0 log' a b c Hrun.
    destruct (prepare_certs_Ok fs' sc ck ca log0 log' a b c Hrun) as [Ha [Hb Hc]].
    split; [|split]; intros H; eapply slot_ok_absent; eassumption.
Qed.

Lemma prepare_certs_raises_open_error_witness :
  exists k p e log',
    failing_slot disk (Some "server.pem"%string) (Some "locked.pem"%string) None
      = Some k /\
    slot_path k (Some "server.pem"%string) (Some "locked.pem"%string) None
      = Some p /\
    open_error disk p = Some e /\
    exn_filename e = Some p /\
    prepare_certs disk (Some "server.pem"%string) (Some "locked.pem"%string)
      None [] = (log', Raise e).
Proof.
  apply (prepare_certs_raises_open_error disk
           (Some "server.pem"%string) (Some "locked.pem"%string) None []).
  exists "locked.pem"%string. split.
  - simpl. auto.
  - vm_compute. discriminate.
Defined.

(** C8 as stated fails: the error does not tell the slots apart.  A missing
    file given as server certificate and the same missing file given as
    client key fail with the same error, so no reading of the error yields
    the failing slot. *)
Lemma prepare_certs_error_does_not_name_slot :
  prepare_certs ∅ (Some "a.pem"%string) None None [] =
    ([SysOpen "a.pem"%string], Raise (FileNotFoundError "a.pem")) /\
  prepare_certs ∅ None (Some "a.pem"%string) None [] =
    ([SysOpen "a.pem"%string], Raise (FileNotFoundError "a.pem")) /\
  failing_slot ∅ (Some "a.pem"%string) None None = Some ServerCert /\
  failing_slot ∅ None (Some "a.pem"%string) None = Some ClientKey /\
  ~ (exists slot_of : exn -> slot,
       forall (fs : filesystem) sc ck ca log log' e,
         prepare_certs fs sc ck ca log = (log', Raise e) ->
         failing_slot fs sc ck ca = Some (slot_of e)).
Proof.
  assert (H1 : prepare_certs ∅ (Some "a.pem"%string) None None [] =
    ([SysOpen "a.pem"%string], Raise (FileNotFoundError "a.pem")))
    by (vm_compute; reflexivity).
  assert (H2 : prepare_certs ∅ None (Some "a.pem"%string) None [] =
    ([SysOpen "a.pem"%string], Raise (FileNotFoundError "a.pem")))
    by (vm_compute; reflexivity).
  assert (F1 : failing_slot ∅ (Some "a.pem"%string) None None = Some ServerCert)
    by (vm_compute; reflexivity).
  assert (F2 : failing_slot ∅ None (Some "a.pem"%string) None = Some ClientKey)
    by (vm_compute; reflexivity).
  repeat split; try assumption.
  intros [slot_of H].
  pose proof (H _ _ _ _ _ _ _ H1) as E1.
  pose proof (H _ _ _ _ _ _ _ H2) as E2.
  rewrite F1 in E1. rewrite F2 in E2. congruence.
Qed.

(** * The claim about version resolution *)

Lemma default_version_None (s : Versions.server) :
  Versions.default_version s = None ->
  forall t, In t s -> Versions.is_available t = false.
Proof.
  induction s as [|u s IH]; simpl; intros H t Ht; [destruct Ht|].
  destruct (Versions.is_available u) eqn:Hu.
  - destruct (Versions.default_version s) as [b|]; [|discriminate].
    destruct (Versions.t_version b <? Versions.t_version u); discriminate.
  - destruct Ht as [<-|Ht]; [exact Hu|]. apply IH; assumption.
Qed.

Lemma default_version_is_max (s : Versions.server) (t : Versions.tracked) :
  Versions.default_version s = Some t ->
  In t s /\ Versions.is_available t = true /\
  forall t', In t' s -> Versions.is_available t' = true ->
             Versions.t_version t' <= Versions.t_version t.
Proof.
  revert t. induction s as [|u s IH]; intros t; simpl; [discriminate|].
  destruct (Versions.is_available u) eqn:Hu.
  - destruct (Versions.default_version s) as [b|] eqn:Hb.
    + destruct (IH b eq_refl) as [Hin [Hav Hmax]].
      destruct (Versions.t_version b <? Versions.t_version u) eqn:Hlt;
        intros H; inversion H; subst.
      * apply Z.ltb_lt in Hlt. split; [auto|]. split; [exact Hu|].
        intros t' [<-|Ht'] Ha; [lia|]. specialize (Hmax t' Ht' Ha). lia.
      * apply Z.ltb_ge in Hlt. split; [auto|]. split; [exact Hav|].
        intros t' [<-|Ht'] Ha; [lia|]. apply Hmax; assumption.
    + intros H. inversion H; subst. split; [auto|]. split; [exact Hu|].
      intros t' [<-|Ht'] Ha; [lia|].
      rewrite (default_version_None s Hb t' Ht') in Ha. discriminate.
  - intros H. destruct (IH t H) as [Hin [Hav Hmax]].
    split; [auto|]. split; [exact Hav|].
    intros t' [<-|Ht'] Ha; [congruence|]. apply Hmax; assumption.
Qed.

(** C6: with versions 1 and 2 both AVAILABLE, a status request without a
    version returns two entries, one per tracked version, while an
    inference or a metadata request without a version is answered by
    version 2 alone, the largest id among the AVAILABLE versions; the checks
    of [test_get_model_status] and [test_run_inference] hold. *)
Theorem status_lists_all_versions_default_is_latest
    (ERROR_MESSAGE : Versions.ModelVersionState -> Versions.ErrorCode -> string)
    (shape1 shape2 : list Z) :
  let s := Versions.two_versions shape1 shape2 in
  (exists l, Versions.GetModelStatus ERROR_MESSAGE s None = inl l /\
             length l = 2%nat /\ map Versions.version l = [1; 2]) /\
  (exists t, Versions.resolve s None = inl t /\
             Versions.t_version t = 2 /\
             forall t', In t' s -> Versions.is_available t' = true ->
                        Versions.t_version t' <= Versions.t_version t) /\
  Versions.infer_output_shape s None = inl shape2 /\
  Versions.GetModelMetadata s None = inl (2, shape2) /\
  Versions.infer_output_shape s (Some 1) = inl shape1 /\
  Versions.test_get_model_status ERROR_MESSAGE s None = true /\
  (forall version, In version [Some 1; Some 2; None] ->
     Versions.test_run_inference [shape1; shape2] shape2 s version = true).
Proof.
  intros s.
  split; [eexists; repeat split; reflexivity|].
  split.
  { eexists. split; [reflexivity|]. split; [reflexivity|].
    apply (default_version_is_max s). reflexivity. }
  split; [reflexivity|]. split; [reflexivity|]. split; [reflexivity|].
  split.
  { unfold Versions.test_get_model_status. simpl.
    apply String.eqb_refl. }
  intros version Hv. simpl in Hv.
  destruct Hv as [<-|[<-|[<-|[]]]];
    unfold Versions.test_run_inference; simpl;
    apply bool_decide_eq_true; reflexivity.
Qed.

(** * Further properties of [print_statistics] *)

(** ** The sorted data *)

Section Sorting.

Local Open Scope Q_scope.

Lemma insert_sorted_length (x : Q) (l : list Q) :
  length (np.insert_sorted x l) = S (length l).
Proof.
  induction l as [|y l IH]; simpl; [reflexivity|].
  destruct (Qle_bool x y); simpl; [reflexivity|]. rewrite IH. reflexivity.
Qed.

Lemma sort_length (l : list Q) : length (np.sort l) = length l.
Proof.
  induction l as [|x l IH]; simpl; [reflexivity|].
  rewrite insert_sorted_length, IH. reflexivity.
Qed.

Lemma insert_sorted_In (x y : Q) (l : list Q) :
  In y (np.insert_sorted x l) -> y = x \/ In y l.
Proof.
  induction l as [|z l IH]; simpl.
  - intros [<-|[]]. left. reflexivity.
  - destruct (Qle_bool x z); simpl.
    + intros [<-|[<-|H]]; auto.
    + intros [<-|H]; [auto|]. destruct (IH H); auto.
Qed.

Lemma sort_In (y : Q) (l : list Q) : In y (np.sort l) -> In y l.
Proof.
  induction l as [|x l IH]; simpl; [auto|].
  intros H. destruct (insert_sorted_In x y _ H) as [->|H']; auto.
Qed.

(** An element of the sorted data at a valid index is one of the samples. *)
Lemma item_sort_In (a : list Q) (i : nat) :
  (i < length a)%nat -> In (np.item (np.sort a) i) a.
Proof.
  intros Hi. apply sort_In. unfold np.item. apply nth_In.
  rewrite sort_length. exact Hi.
Qed.

Lemma Qle_bool_false (x y : Q) : Qle_bool x y = false -> y < x.
Proof.
  intros H. destruct (Qlt_le_dec y x) as [Hlt|Hle]; [exact Hlt|].
  apply Qle_bool_iff in Hle. congruence.
Qed.

Lemma insert_sorted_sorted (x : Q) (l : list Q) :
  StronglySorted Qle l -> StronglySorted Qle (np.insert_sorted x l).
Proof.
  induction 1 as [|y l Hs IH Hall]; simpl.
  - constructor; constructor.
  - destruct (Qle_bool x y) eqn:E.
    + apply Qle_bool_iff in E. constructor.
      * constructor; assumption.
      * constructor; [exact E|].
        rewrite List.Forall_forall in *. intros z Hz.
        apply Qle_trans with y; [exact E|apply Hall; exact Hz].
    + apply Qle_bool_false in E. constructor; [exact IH|].
      rewrite List.Forall_forall in *. intros z Hz.
      destruct (insert_sorted_In x z l Hz) as [->|Hz'].
      * apply Qlt_le_weak. exact E.
      * apply Hall. exact Hz'.
Qed.

Lemma sort_sorted (l : list Q) : StronglySorted Qle (np.sort l).
Proof.
  induction l as [|x l IH]; simpl; [constructor|].
  apply insert_sorted_sorted. exact IH.
Qed.

Lemma sorted_item_le (l : list Q) :
  StronglySorted Qle l ->
  forall i j, (i <= j)%nat -> (j < length l)%nat -> np.item l i <= np.item l j.
Proof.
  unfold np.item. induction 1 as [|y l Hs IH Hall]; intros i j Hij Hj.
  - simpl in Hj. lia.
  - destruct i as [|i], j as [|j]; simpl in *.
    + apply Qle_refl.
    + rewrite List.Forall_forall in Hall. apply Hall. apply nth_In. lia.
    + lia.
    + apply IH; lia.
Qed.

Lemma item_sort_le (a : list Q) (i j : nat) :
  (i <= j)%nat -> (j < length a)%nat ->
  np.item (np.sort a) i <= np.item (np.sort a) j.
Proof.
  intros Hij Hj. apply sorted_item_le; [apply sort_sorted|exact Hij|].
  rewrite sort_length. exact Hj.
Qed.

End Sorting.

(** ** Where the statistics lie *)

Section Bounds.

Local Open Scope Q_scope.




End Bounds.






(** * Further properties of [prepare_certs] *)

Lemma load_readable_run (fs : filesystem) (path : option string) (log : fslog) :
  cannot_open fs path = false ->
  load fs path log = (log ++ calls_of path, Ok (file_bytes fs path)).
Proof.
  destruct path as [p|]; simpl cannot_open; intros H.
  - apply bool_decide_eq_false in H.
    destruct (open_error fs p) as [e|] eqn:E; [exfalso; apply H; eauto|].
    destruct (open_error_None fs p E) as [c Hc].
    rewrite (load_file fs p c log Hc). simpl. rewrite Hc. reflexivity.
  - rewrite load_None. simpl. rewrite app_nil_r. reflexivity.
Qed.

Lemma readable_cannot_open (fs : filesystem) (path : option string) :
  (forall p, path = Some p -> exists content, fs !! p = Some (File content)) ->
  cannot_open fs path = false.
Proof.
  intros H. destruct path as [p|]; [|reflexivity]. simpl.
  destruct (H p eq_refl) as [c Hc].
  rewrite (open_error_file fs p c Hc).
  apply bool_decide_eq_false. intros [e He]. discriminate He.
Qed.

(** X7: when every supplied path names a readable file, the calls made to
    the file system are exactly open, read and close for each supplied
    path, one file after the other in the order server certificate, client
    key, client CA, and the result holds the bytes of each file.  So every
    file is closed before the next one is opened and no other path is
    touched. *)
Theorem prepare_certs_calls_on_success
    (fs : filesystem) (sc ck ca : option string) (log : fslog) :
  (forall p, In (Some p) [sc; ck; ca] ->
     exists content, fs !! p = Some (File content)) ->
  prepare_certs fs sc ck ca log =
  (log ++ calls_of sc ++ calls_of ck ++ calls_of ca,
   Ok (file_bytes fs sc, file_bytes fs ck, file_bytes fs ca)).
Proof.
  intros Hr. rewrite prepare_certs_load.
  assert (H1 : cannot_open fs sc = false)
    by (apply readable_cannot_open; intros p ->; apply Hr; simpl; auto).
  assert (H2 : cannot_open fs ck = false)
    by (apply readable_cannot_open; intros p ->; apply Hr; simpl; auto).
  assert (H3 : cannot_open fs ca = false)
    by (apply readable_cannot_open; intros p ->; apply Hr; simpl; auto).
  unfold bind at 1. rewrite (load_readable_run fs sc log H1).
  unfold bind at 1. rewrite (load_readable_run fs ck _ H2).
  unfold bind at 1. rewrite (load_readable_run fs ca _ H3).
  unfold ret. rewrite <- !app_assoc. reflexivity.
Qed.

Lemma prepare_certs_calls_on_success_witness :
  prepare_certs disk (Some "server.pem"%string) None
    (Some "client.key"%string) [] =
  ([] ++ calls_of (Some "server.pem"%string) ++ calls_of None ++
         calls_of (Some "client.key"%string),
   Ok (file_bytes disk (Some "server.pem"%string), file_bytes disk None,
       file_bytes disk (Some "client.key"%string))).
Proof.
  apply (prepare_certs_calls_on_success disk
           (Some "server.pem"%string) None (Some "client.key"%string) []).
  intros p Hp. simpl in Hp.
  destruct Hp as [Hp|[Hp|[Hp|[]]]]; inversion Hp; subst.
  - exists [Byte.x01; Byte.x02]. vm_compute. reflexivity.
  - exists [Byte.xff]. vm_compute. reflexivity.
Defined.

(** X8: when the [open] of some slot fails, the files of the slots before
    it have been opened, read and closed, the failing path has been tried
    once, and nothing of the later slots is touched. *)
Theorem prepare_certs_calls_on_failure
    (fs : filesystem) (sc ck ca : option string) (log : fslog) (k : slot) :
  failing_slot fs sc ck ca = Some k ->
  exists p e,
    slot_path k sc ck ca = Some p /\
    open_error fs p = Some e /\
    prepare_certs fs sc ck ca log =
    (log ++ calls_before k sc ck ca ++ [SysOpen p], Raise e).
Proof.
  unfold failing_slot. rewrite prepare_certs_load.
  destruct (cannot_open fs sc) eqn:C1.
  { intros H. inversion H; subst.
    destruct (cannot_open_true fs sc C1) as [p [e [-> He]]].
    exists p, e. split; [reflexivity|]. split; [exact He|].
    unfold bind at 1. rewrite (load_error fs p e log He). reflexivity. }
  unfold bind at 1. rewrite (load_readable_run fs sc log C1).
  destruct (cannot_open fs ck) eqn:C2.
  { intros H. inversion H; subst.
    destruct (cannot_open_true fs ck C2) as [p [e [-> He]]].
    exists p, e. split; [reflexivity|]. split; [exact He|].
    unfold bind at 1. rewrite (load_error fs p e _ He).
    simpl calls_before. rewrite <- !app_assoc. reflexivity. }
  unfold bind at 1. rewrite (load_readable_run fs ck _ C2).
  destruct (cannot_open fs ca) eqn:C3; [|discriminate].
  intros H. inversion H; subst.
  destruct (cannot_open_true fs ca C3) as [p [e [-> He]]].
  exists p, e. split; [reflexivity|]. split; [exact He|].
  unfold bind at 1. rewrite (load_error fs p e _ He).
  simpl calls_before. rewrite <- !app_assoc. reflexivity.
Qed.

Lemma prepare_certs_calls_on_failure_witness :
  exists p e,
    slot_path ClientKey (Some "server.pem"%string) (Some "locked.pem"%string)
      (Some "client.key"%string) = Some p /\
    open_error disk p = Some e /\
    prepare_certs disk (Some "server.pem"%string) (Some "locked.pem"%string)
      (Some "client.key"%string) [] =
    ([] ++ calls_before ClientKey (Some "server.pem"%string)
             (Some "locked.pem"%string) (Some "client.key"%string)
        ++ [SysOpen p], Raise e).
Proof.
  apply (prepare_certs_calls_on_failure disk (Some "server.pem"%string)
           (Some "locked.pem"%string) (Some "client.key"%string) [] ClientKey).
  vm_compute. reflexivity.
Defined.

(** * Double arithmetic *)

(** ** The rounding agrees with the Standard Library's IEEE operations *)

Example rnd_agrees_with_SFdiv :
  SF2float (SFdiv 53 1024 (SFofZ 1000)
              (SFdiv 53 1024 (SFofZ 152) (SFofZ 100))) =
  f64.div (Rat 1000) (rnd (152 # 100)).
Proof. vm_compute. reflexivity. Qed.

Example rnd_agrees_with_SFmul :
  SF2float (SFmul 53 1024 (SFdiv 53 1024 (SFofZ 5) (SFofZ 1000)) (SFofZ 100)) =
  f64.mul (rnd (5 # 1000)) (Rat 100).
Proof. vm_compute. reflexivity. Qed.

Example rnd_agrees_with_SFadd :
  SF2float (SFadd 53 1024 (SFdiv 53 1024 (SFofZ 1) (SFofZ 10))
              (SFdiv 53 1024 (SFofZ 2) (SFofZ 10))) =
  f64.add (rnd (1 # 10)) (rnd (2 # 10)).
Proof. vm_compute. reflexivity. Qed.

Example rnd_agrees_with_SFsqrt :
  SF2float (SFsqrt 53 1024 (SFdiv 53 1024 (SFofZ 3) (SFofZ 200))) =
  f64.sqrt (rnd (3 # 200)).
Proof. vm_compute. reflexivity. Qed.

Example rnd_agrees_on_subnormal :
  SF2float (SFdiv 53 1024 (SFdiv 53 1024 (SFofZ 7) (SFofZ (2 ^ 1000)))
              (SFofZ (5 * 2 ^ 60))) =
  f64.div (f64.div (Rat 7) (Rat (inject_Z (2 ^ 1000))))
          (Rat (inject_Z (5 * 2 ^ 60))).
Proof. vm_compute. reflexivity. Qed.

Example rnd_agrees_on_overflow :
  SF2float (SFmul 53 1024 (SFofZ (2 ^ 600)) (SFofZ (2 ^ 600))) =
  f64.mul (Rat (inject_Z (2 ^ 600))) (Rat (inject_Z (2 ^ 600))).
Proof. vm_compute. reflexivity. Qed.

Example rnd_agrees_on_large_int :
  SF2float (SFofZ (2 ^ 53 + 3)) = rnd (inject_Z (2 ^ 53 + 3)).
Proof. vm_compute. reflexivity. Qed.

(** ** Powers of two and the binary logarithm *)

Section Doubles.

Local Open Scope Q_scope.

Lemma pow2_pos (e : Z) : 0 < pow2 e.
Proof. apply Qpower_0_lt. reflexivity. Qed.

Lemma pow2_plus (a b : Z) : pow2 (a + b) == pow2 a * pow2 b.
Proof. apply Qpower_plus. discriminate. Qed.

Lemma pow2_le (a b : Z) : (a <= b)%Z -> pow2 a <= pow2 b.
Proof. intros H. apply Qpower_le_compat_l; [exact H|discriminate]. Qed.

Lemma pow2_lt (a b : Z) : (a < b)%Z -> pow2 a < pow2 b.
Proof. intros H. apply Qpower_lt_compat_l; [exact H|reflexivity]. Qed.

Lemma pow2_lt_inv (a b : Z) : pow2 a < pow2 b -> (a < b)%Z.
Proof. intros H. apply (Qpower_lt_compat_l_inv 2); [exact H|reflexivity]. Qed.

Lemma pow2_inject (e : Z) : (0 <= e)%Z -> pow2 e == inject_Z (2 ^ e).
Proof. intros H. unfold pow2. rewrite (Zpower_Qpower 2 e H). reflexivity. Qed.

Lemma pow2_opp (e : Z) : pow2 (- e) == / pow2 e.
Proof. apply Qpower_opp. Qed.

Lemma Qmake_inject (n : Z) (d : positive) :
  (n # d) * inject_Z (Zpos d) == inject_Z n.
Proof.
  unfold Qeq, Qmult, inject_Z. simpl.
  rewrite Pos.mul_1_r, Z.mul_1_r. reflexivity.
Qed.

Lemma Qnum_pos (x : Q) : 0 < x -> (0 < Qnum x)%Z.
Proof. unfold Qlt. simpl. lia. Qed.

Lemma ilog2_spec (x : Q) :
  0 < x -> pow2 (ilog2 x) <= x /\ x < pow2 (ilog2 x + 1).
Proof.
  intros Hx. unfold ilog2.
  pose proof (Qred_correct x) as Hr.
  destruct (Qred x) as [n d] eqn:E.
  assert (Hxr : 0 < n # d) by (rewrite Hr; exact Hx).
  pose proof (Qnum_pos _ Hxr) as Hn. simpl in Hn.
  cbv zeta. simpl Qnum. simpl Qden.
  set (ln := Z.log2 n). set (ld := Z.log2 (Zpos d)).
  destruct (Z.log2_spec n Hn) as [Hn1 Hn2]. fold ln in Hn1, Hn2.
  destruct (Z.log2_spec (Zpos d) ltac:(lia)) as [Hd1 Hd2]. fold ld in Hd1, Hd2.
  assert (Hln : (0 <= ln)%Z) by apply Z.log2_nonneg.
  assert (Hld : (0 <= ld)%Z) by apply Z.log2_nonneg.
  set (N := inject_Z n). set (D := inject_Z (Zpos d)).
  assert (HND : x * D == N) by (rewrite <- Hr; apply Qmake_inject).
  assert (HD : 0 < D) by (unfold D; change 0 with (inject_Z 0);
                          rewrite <- Zlt_Qlt; lia).
  assert (HN1 : pow2 ln <= N)
    by (rewrite (pow2_inject ln Hln); unfold N; rewrite <- Zle_Qle; exact Hn1).
  assert (HN2 : N < pow2 (ln + 1))
    by (rewrite (pow2_inject (ln + 1)) by lia; unfold N;
        rewrite <- Zlt_Qlt; exact Hn2).
  assert (HD1 : pow2 ld <= D)
    by (rewrite (pow2_inject ld Hld); unfold D; rewrite <- Zle_Qle; exact Hd1).
  assert (HD2 : D < pow2 (ld + 1))
    by (rewrite (pow2_inject (ld + 1)) by lia; unfold D;
        rewrite <- Zlt_Qlt; exact Hd2).
  assert (Hup : x < pow2 (ln - ld + 1)).
  { apply (Qmult_lt_r _ _ D HD). rewrite HND.
    apply Qlt_le_trans with (pow2 (ln + 1)); [exact HN2|].
    replace (ln + 1)%Z with ((ln - ld + 1) + ld)%Z by lia.
    rewrite pow2_plus. apply Qmult_le_l; [apply pow2_pos|exact HD1]. }
  assert (Hlow : pow2 (ln - ld - 1) < x).
  { apply (Qmult_lt_r _ _ D HD). rewrite HND.
    apply Qlt_le_trans with (pow2 ln); [|exact HN1].
    replace ln with ((ln - ld - 1) + (ld + 1))%Z at 2 by lia.
    rewrite pow2_plus. apply Qmult_lt_l; [apply pow2_pos|exact HD2]. }
  destruct (Qle_bool (pow2 (ln - ld)) (n # d)) eqn:B.
  - apply Qle_bool_iff in B. rewrite Hr in B. split; assumption.
  - apply Qle_bool_false in B. rewrite Hr in B.
    replace (ln - ld - 1 + 1)%Z with (ln - ld)%Z by lia.
    split; [apply Qlt_le_weak; exact Hlow|exact B].
Qed.

Lemma ilog2_unique (x : Q) (k : Z) :
  0 < x -> pow2 k <= x -> x < pow2 (k + 1) -> ilog2 x = k.
Proof.
  intros Hx Hlo Hhi. destruct (ilog2_spec x Hx) as [Slo Shi].
  assert (H1 : (ilog2 x < k + 1)%Z)
    by (apply pow2_lt_inv; apply Qle_lt_trans with x; assumption).
  assert (H2 : (k < ilog2 x + 1)%Z)
    by (apply pow2_lt_inv; apply Qle_lt_trans with x; assumption).
  lia.
Qed.

Lemma ilog2_mono (x y : Q) : 0 < x -> x <= y -> (ilog2 x <= ilog2 y)%Z.
Proof.
  intros Hx Hxy. assert (Hy : 0 < y) by lra.
  destruct (ilog2_spec x Hx) as [Xlo _].
  destruct (ilog2_spec y Hy) as [_ Yhi].
  assert (H : (ilog2 x < ilog2 y + 1)%Z)
    by (apply pow2_lt_inv; lra).
  lia.
Qed.

Lemma ilog2_comp (x y : Q) : x == y -> ilog2 x = ilog2 y.
Proof. intros H. unfold ilog2. rewrite (Qred_complete x y H). reflexivity. Qed.

End Doubles.

(** ** Rounding to the nearest double *)

Section Nearest.

Local Open Scope Q_scope.

Lemma ulp_exp_pos (x : Q) :
  0 < x -> ulp_exp x = Z.max (ilog2 x - 52) (-1074).
Proof.
  intros Hx. unfold ulp_exp.
  rewrite (ilog2_comp (Qabs x) x (Qabs_pos x (Qlt_le_weak _ _ Hx))).
  reflexivity.
Qed.

Lemma ulp_exp_comp (x y : Q) : x == y -> ulp_exp x = ulp_exp y.
Proof.
  intros H. unfold ulp_exp. rewrite (ilog2_comp (Qabs x) (Qabs y)).
  - reflexivity.
  - rewrite H. reflexivity.
Qed.

Lemma ulp_exp_mono (x y : Q) : 0 < x -> x <= y -> (ulp_exp x <= ulp_exp y)%Z.
Proof.
  intros Hx Hxy. assert (Hy : 0 < y) by lra.
  rewrite (ulp_exp_pos x Hx), (ulp_exp_pos y Hy).
  pose proof (ilog2_mono x y Hx Hxy). lia.
Qed.

Lemma nearest_comp (x y : Q) : x == y -> nearest x = nearest y.
Proof.
  intros H. unfold nearest. cbv zeta.
  rewrite (ulp_exp_comp x y H).
  rewrite (round_half_even_comp (x / pow2 (ulp_exp y)) (y / pow2 (ulp_exp y)))
    by (rewrite H; reflexivity).
  reflexivity.
Qed.

Lemma scaled_below (x : Q) :
  0 < x -> x / pow2 (ulp_exp x) <= inject_Z (2 ^ 53).
Proof.
  intros Hx. destruct (ilog2_spec x Hx) as [_ Hhi].
  rewrite (ulp_exp_pos x Hx). set (e := Z.max (ilog2 x - 52) (-1074)).
  apply Qle_shift_div_r; [apply pow2_pos|].
  rewrite <- (pow2_inject 53) by lia. rewrite <- pow2_plus.
  apply Qlt_le_weak. apply Qlt_le_trans with (pow2 (ilog2 x + 1)); [exact Hhi|].
  apply pow2_le. lia.
Qed.

Lemma scaled_above (x : Q) :
  0 < x -> ulp_exp x = (ilog2 x - 52)%Z ->
  inject_Z (2 ^ 52) <= x / pow2 (ulp_exp x).
Proof.
  intros Hx He. destruct (ilog2_spec x Hx) as [Hlo _]. rewrite He.
  apply Qle_shift_div_l; [apply pow2_pos|].
  rewrite <- (pow2_inject 52) by lia. rewrite <- pow2_plus.
  replace (52 + (ilog2 x - 52))%Z with (ilog2 x) by lia. exact Hlo.
Qed.

Lemma scaled_nonneg (x : Q) (e : Z) : 0 <= x -> 0 <= x / pow2 e.
Proof.
  intros Hx. apply Qle_shift_div_l; [apply pow2_pos|]. lra.
Qed.

Lemma nearest_le_pow2 (x : Q) : 0 < x -> nearest x <= pow2 (ulp_exp x + 53).
Proof.
  intros Hx. unfold nearest. cbv zeta.
  pose proof (round_half_even_mono _ _ (scaled_below x Hx)) as Hm.
  rewrite round_half_even_inject_Z in Hm.
  rewrite Z.add_comm, pow2_plus, (pow2_inject 53) by lia.
  apply Qmult_le_compat_r; [|apply Qlt_le_weak, pow2_pos].
  rewrite <- Zle_Qle. exact Hm.
Qed.

Lemma pow2_le_nearest (x : Q) :
  0 < x -> ulp_exp x = (ilog2 x - 52)%Z -> pow2 (ulp_exp x + 52) <= nearest x.
Proof.
  intros Hx He. unfold nearest. cbv zeta.
  pose proof (round_half_even_mono _ _ (scaled_above x Hx He)) as Hm.
  rewrite round_half_even_inject_Z in Hm.
  rewrite Z.add_comm, pow2_plus, (pow2_inject 52) by lia.
  apply Qmult_le_compat_r; [|apply Qlt_le_weak, pow2_pos].
  rewrite <- Zle_Qle. exact Hm.
Qed.

Lemma nearest_nonneg (x : Q) : 0 <= x -> 0 <= nearest x.
Proof.
  intros Hx. unfold nearest. cbv zeta.
  apply Qmult_le_0_compat; [|apply Qlt_le_weak, pow2_pos].
  change 0 with (inject_Z 0). rewrite <- Zle_Qle.
  rewrite <- (round_half_even_inject_Z 0).
  apply round_half_even_mono. apply scaled_nonneg. exact Hx.
Qed.

(** Rounding keeps the order of positive values. *)
Lemma nearest_mono (x y : Q) : 0 < x -> x <= y -> nearest x <= nearest y.
Proof.
  intros Hx Hxy. assert (Hy : 0 < y) by lra.
  pose proof (ulp_exp_mono x y Hx Hxy) as He.
  destruct (Z.eq_dec (ulp_exp x) (ulp_exp y)) as [Heq|Hne].
  - unfold nearest. cbv zeta. rewrite Heq.
    apply Qmult_le_compat_r; [|apply Qlt_le_weak, pow2_pos].
    rewrite <- Zle_Qle. apply round_half_even_mono.
    apply Qmult_le_compat_r; [exact Hxy|].
    apply Qlt_le_weak, Qinv_lt_0_compat, pow2_pos.
  - assert (Hlt : (ulp_exp x < ulp_exp y)%Z) by lia.
    assert (Hny : ulp_exp y = (ilog2 y - 52)%Z).
    { rewrite (ulp_exp_pos y Hy) in *. rewrite (ulp_exp_pos x Hx) in Hlt. lia. }
    apply Qle_trans with (pow2 (ulp_exp x + 53)); [apply nearest_le_pow2, Hx|].
    apply Qle_trans with (pow2 (ulp_exp y + 52));
      [apply pow2_le; lia|apply pow2_le_nearest; assumption].
Qed.

Lemma Qnum_sign (x : Q) : 0 <= x -> (Qnum x <? 0)%Z = false.
Proof. intros H. apply Z.ltb_ge. unfold Qle in H. simpl in H. lia. Qed.

Lemma Qnum_sign_comp (x y : Q) : x == y -> (Qnum x <? 0)%Z = (Qnum y <? 0)%Z.
Proof.
  intros H. unfold Qeq in H.
  destruct (Qnum x <? 0)%Z eqn:Ex, (Qnum y <? 0)%Z eqn:Ey; try reflexivity.
  - apply Z.ltb_lt in Ex. apply Z.ltb_ge in Ey. nia.
  - apply Z.ltb_ge in Ex. apply Z.ltb_lt in Ey. nia.
Qed.

Lemma Qeq_bool_comp (x y : Q) : x == y -> Qeq_bool x 0 = Qeq_bool y 0.
Proof.
  intros H. destruct (Qeq_bool x 0) eqn:Ex, (Qeq_bool y 0) eqn:Ey;
    try reflexivity.
  - apply Qeq_bool_iff in Ex. apply Qeq_bool_neq in Ey.
    exfalso. apply Ey. rewrite <- H. exact Ex.
  - apply Qeq_bool_iff in Ey. apply Qeq_bool_neq in Ex.
    exfalso. apply Ex. rewrite H. exact Ey.
Qed.

(** Equal values round to the same double. *)
Lemma rnd_comp (x y : Q) : x == y -> rnd x = rnd y.
Proof.
  intros H. unfold rnd.
  rewrite (Qeq_bool_comp x y H), (nearest_comp x y H), (Qnum_sign_comp x y H).
  reflexivity.
Qed.

Lemma rnd_0 : rnd 0 = Rat 0.
Proof. reflexivity. Qed.

(** The order of values that are not negative is kept by the rounding. *)
Lemma rnd_mono (x y : Q) : 0 <= x -> x <= y -> float_le (rnd x) (rnd y).
Proof.
  intros Hx Hxy. assert (Hy : 0 <= y) by lra.
  pose proof (nearest_nonneg y Hy) as Hny.
  unfold rnd. rewrite (Qnum_sign x Hx), (Qnum_sign y Hy).
  destruct (Qeq_bool x 0) eqn:Ex.
  - destruct (Qeq_bool y 0); [apply Qle_refl|].
    destruct (Qle_bool (pow2 1024) (Qabs (nearest y))); [exact I|].
    simpl. rewrite Qred_correct. exact Hny.
  - apply Qeq_bool_neq in Ex. assert (Hx0 : 0 < x) by lra.
    assert (Hy0 : 0 < y) by lra.
    replace (Qeq_bool y 0) with false
      by (symmetry; apply not_true_is_false; intros E;
          apply Qeq_bool_iff in E; lra).
    pose proof (nearest_mono x y Hx0 Hxy) as Hm.
    pose proof (nearest_nonneg x Hx) as Hnx.
    destruct (Qle_bool (pow2 1024) (Qabs (nearest x))) eqn:Bx;
      destruct (Qle_bool (pow2 1024) (Qabs (nearest y))) eqn:By;
      try exact I.
    + apply Qle_bool_iff in Bx. apply Qle_bool_false in By.
      rewrite Qabs_pos in Bx, By by assumption. lra.
    + simpl. rewrite !Qred_correct. exact Hm.
Qed.

Lemma rnd_nonneg (x : Q) : 0 <= x -> float_le (Rat 0) (rnd x).
Proof. intros H. apply (rnd_mono 0 x); [apply Qle_refl|exact H]. Qed.

End Nearest.

(** ** Values that need no rounding *)

Section Exact.

Local Open Scope Q_scope.

Lemma rnd_cases (x : Q) : (exists v, rnd x = Rat v) \/ (exists b, rnd x = Inf b).
Proof.
  unfold rnd. destruct (Qeq_bool x 0); [left; eauto|].
  destruct (Qle_bool (pow2 1024) (Qabs (nearest x))); [right|left]; eauto.
Qed.

(** A value whose significand is an integer at its own last bit is a
    double. *)
Lemma rnd_exact (x : Q) (m : Z) :
  0 < x -> x < pow2 1024 -> x / pow2 (ulp_exp x) == inject_Z m ->
  is_double x.
Proof.
  intros Hx Hlt Hm.
  assert (Hn : nearest x == x).
  { unfold nearest. cbv zeta.
    rewrite (round_half_even_comp _ _ Hm), round_half_even_inject_Z.
    rewrite <- Hm. field.
    intros E. pose proof (pow2_pos (ulp_exp x)) as P. rewrite E in P.
    discriminate P. }
  exists (Qred (nearest x)). split.
  - unfold rnd.
    replace (Qeq_bool x 0) with false
      by (symmetry; apply not_true_is_false; intros E;
          apply Qeq_bool_iff in E; lra).
    replace (Qle_bool (pow2 1024) (Qabs (nearest x))) with false;
      [reflexivity|].
    symmetry. apply not_true_is_false. intros E.
    apply Qle_bool_iff in E. rewrite Hn, Qabs_pos in E; lra.
  - rewrite Qred_correct. exact Hn.
Qed.

Lemma is_double_0 : is_double 0.
Proof. exists 0. split; reflexivity. Qed.

(** Every integer from 0 to below [2^53] is a double. *)
Lemma is_double_int (k : Z) : (0 <= k < 2 ^ 53)%Z -> is_double (inject_Z k).
Proof.
  intros [Hk0 Hk]. destruct (Z.eq_dec k 0%Z) as [->|Hne]; [apply is_double_0|].
  set (x := inject_Z k).
  assert (Hx : 0 < x)
    by (unfold x; change 0 with (inject_Z 0); rewrite <- Zlt_Qlt; lia).
  destruct (ilog2_spec x Hx) as [Hlo Hhi].
  assert (H53 : x < pow2 53)
    by (rewrite (pow2_inject 53) by lia; unfold x; rewrite <- Zlt_Qlt; exact Hk).
  assert (H1 : pow2 0 <= x)
    by (change (pow2 0) with (inject_Z 1); unfold x; rewrite <- Zle_Qle; lia).
  assert (HE1 : (ilog2 x < 53)%Z) by (apply pow2_lt_inv; lra).
  assert (HE0 : (0 < ilog2 x + 1)%Z) by (apply pow2_lt_inv; lra).
  assert (He : ulp_exp x = (ilog2 x - 52)%Z)
    by (rewrite (ulp_exp_pos x Hx); lia).
  apply (rnd_exact x (k * 2 ^ (52 - ilog2 x))).
  - exact Hx.
  - apply Qlt_trans with (pow2 53); [exact H53|apply pow2_lt; lia].
  - rewrite He, inject_Z_mult.
    rewrite <- (pow2_inject (52 - ilog2 x)) by lia.
    replace (52 - ilog2 x)%Z with (- (ilog2 x - 52))%Z by lia.
    rewrite pow2_opp. reflexivity.
Qed.

Lemma is_double_nat (n : nat) :
  (Z.of_nat n < 2 ^ 53)%Z ->
  exists v, f64.of_nat n = Rat v /\ v == inject_Z (Z.of_nat n).
Proof. intros H. apply (is_double_int (Z.of_nat n)). lia. Qed.

(** Within [2^53] a Python int converts to a double without rounding. *)
Lemma of_int_exact (n : Z) :
  (0 <= n < 2 ^ 53)%Z -> exists v, f64.of_int n = Ok (Rat v) /\ v == inject_Z n.
Proof.
  intros H. destruct (is_double_int n H) as [v [Hv Hq]].
  exists v. unfold f64.of_int. rewrite Hv. split; [reflexivity|exact Hq].
Qed.

End Exact.

(** ** Running [print_statistics] in double arithmetic *)

Lemma f64_percentile_90 (x : Q) (l : list Q) :
  f64.percentile (x :: l) 90 =
  Ok (f64.percentile_of (x :: l) (f64.literal (9 # 10))).
Proof.
  unfold f64.percentile.
  replace (f64.quantile 90) with (Rat (f64.literal (9 # 10)))
    by (vm_compute; reflexivity).
  replace (Qle_bool 0 (f64.literal (9 # 10)) && Qle_bool (f64.literal (9 # 10)) 1)
    with true by (vm_compute; reflexivity).
  reflexivity.
Qed.

Lemma f64_percentile_50 (x : Q) (l : list Q) :
  f64.percentile (x :: l) 50 =
  Ok (f64.percentile_of (x :: l) (f64.literal (1 # 2))).
Proof.
  unfold f64.percentile.
  replace (f64.quantile 50) with (Rat (f64.literal (1 # 2)))
    by (vm_compute; reflexivity).
  replace (Qle_bool 0 (f64.literal (1 # 2)) && Qle_bool (f64.literal (1 # 2)) 1)
    with true by (vm_compute; reflexivity).
  reflexivity.
Qed.

Lemma f64_py_div (n : Z) (v d : float) :
  f64.of_int n = Ok v -> f64.py_div n d = Ok (f64.div v d).
Proof. intros H. unfold f64.py_div. rewrite H. reflexivity. Qed.

Lemma f64_print_statistics_nonempty (x : Q) (l : list Q) (batch_size : Z)
    (n : float) (out : stdout) :
  f64.of_int (1000 * batch_size) = Ok n ->
  f64.print_statistics (x :: l) batch_size out =
  (out ++ f64.report (x :: l) n, Ok tt).
Proof.
  intros Hn. unfold f64.print_statistics, f64.report, f64.stat_line.
  rewrite f64_percentile_90, f64_percentile_50.
  change (f64.max (x :: l)) with (Ok (A:=float) (Rat (the_max (x :: l)))).
  change (f64.min (x :: l)) with (Ok (A:=float) (Rat (the_min (x :: l)))).
  unfold f64.average, f64.median, f64.std, f64.var.
  repeat first [ rewrite bind_print | rewrite bind_lift_Ok
               | rewrite (f64_py_div _ n _ Hn) ].
  unfold print. rewrite <- !app_assoc. reflexivity.
Qed.

Lemma f64_print_statistics_overflow (a : list Q) (batch_size : Z) (e : exn)
    (out : stdout) :
  f64.of_int (1000 * batch_size) = Raise e ->
  f64.print_statistics a batch_size out = (out ++ [header], Raise e).
Proof.
  intros Hn. unfold f64.print_statistics, f64.average.
  rewrite bind_print, !bind_lift_Ok.
  unfold f64.py_div. rewrite Hn. reflexivity.
Qed.

(** ** Order and the double operations *)

Section DoubleOrder.

Local Open Scope Q_scope.

Lemma float_le_rnd_inf (z : Q) : float_le (rnd z) (Inf false).
Proof. destruct (rnd_cases z) as [[v ->]|[[|] ->]]; exact I. Qed.

Lemma float_le_refl_rnd (z : Q) : float_le (rnd z) (rnd z).
Proof.
  destruct (rnd_cases z) as [[v ->]|[[|] ->]]; simpl; try exact I.
  apply Qle_refl.
Qed.

Lemma float_le_trans (x y z : float) :
  float_le x y -> float_le y z -> float_le x z.
Proof.
  destruct x as [p|[|]|], y as [q|[|]|], z as [r|[|]|]; simpl; auto;
    try contradiction.
  apply Qle_trans.
Qed.

(** What [round(., 2)] does to a value that is not negative, step by
    step: each step keeps the sign and the order. *)
Lemma mul_100_mono (x y : float) :
  float_le (Rat 0) x -> float_le x y ->
  float_le (Rat 0) (f64.mul x (Rat 100)) /\
  float_le (f64.mul x (Rat 100)) (f64.mul y (Rat 100)).
Proof.
  destruct x as [p|[|]|], y as [q|[|]|]; simpl float_le; intros H0 Hxy;
    try contradiction.
  - change (f64.mul (Rat p) (Rat 100)) with (rnd (p * 100)).
    change (f64.mul (Rat q) (Rat 100)) with (rnd (q * 100)).
    split; [apply rnd_nonneg|apply rnd_mono]; lra.
  - change (f64.mul (Rat p) (Rat 100)) with (rnd (p * 100)).
    change (f64.mul (Inf false) (Rat 100)) with (Inf false).
    split; [apply rnd_nonneg; lra|apply float_le_rnd_inf].
  - change (f64.mul (Inf false) (Rat 100)) with (Inf false). split; exact I.
Qed.

Lemma rint_mono (x y : float) :
  float_le (Rat 0) x -> float_le x y ->
  float_le (Rat 0) (f64.rint x) /\ float_le (f64.rint x) (f64.rint y).
Proof.
  destruct x as [p|[|]|], y as [q|[|]|]; simpl; intros H0 Hxy;
    try contradiction; try (split; exact I).
  - split.
    + change 0 with (inject_Z 0). rewrite <- Zle_Qle.
      rewrite <- (round_half_even_inject_Z 0).
      apply round_half_even_mono. exact H0.
    + rewrite <- Zle_Qle. apply round_half_even_mono. exact Hxy.
  - split; [|exact I].
    change 0 with (inject_Z 0). rewrite <- Zle_Qle.
    rewrite <- (round_half_even_inject_Z 0).
    apply round_half_even_mono. exact H0.
Qed.

Lemma div_100_mono (x y : float) :
  float_le (Rat 0) x -> float_le x y ->
  float_le (Rat 0) (f64.div x (Rat 100)) /\
  float_le (f64.div x (Rat 100)) (f64.div y (Rat 100)).
Proof.
  assert (H100 : forall p q : Q, p <= q -> p / 100 <= q / 100).
  { intros p q H. apply Qmult_le_compat_r; [exact H|discriminate]. }
  assert (H0' : forall p : Q, 0 <= p -> 0 <= p / 100).
  { intros p H. apply Qle_shift_div_l; [reflexivity|lra]. }
  destruct x as [p|[|]|], y as [q|[|]|]; simpl float_le; intros H0 Hxy;
    try contradiction.
  - change (f64.div (Rat p) (Rat 100)) with (rnd (p / 100)).
    change (f64.div (Rat q) (Rat 100)) with (rnd (q / 100)).
    split; [apply rnd_nonneg|apply rnd_mono]; auto.
  - change (f64.div (Rat p) (Rat 100)) with (rnd (p / 100)).
    change (f64.div (Inf false) (Rat 100)) with (Inf false).
    split; [apply rnd_nonneg; auto|apply float_le_rnd_inf].
  - change (f64.div (Inf false) (Rat 100)) with (Inf false). split; exact I.
Qed.

(** [round(., 2)] keeps the order of values that are not negative. *)
Lemma round2_mono (x y : float) :
  float_le (Rat 0) x -> float_le x y ->
  float_le (f64.round2 x) (f64.round2 y).
Proof.
  intros H0 Hxy. unfold f64.round2.
  destruct (mul_100_mono x y H0 Hxy) as [M0 M].
  destruct (rint_mono _ _ M0 M) as [R0 R].
  apply (div_100_mono _ _ R0 R).
Qed.

(** The throughput [n / t] for a positive [n] and times that are not
    negative: it is not negative and never rises with the time. *)
Lemma div_nonneg (n t : Q) :
  0 < n -> 0 <= t -> float_le (Rat 0) (f64.div (Rat n) (Rat t)).
Proof.
  intros Hn Ht. unfold f64.div.
  destruct (Qeq_bool t 0) eqn:E.
  - replace (Qeq_bool n 0) with false
      by (symmetry; apply not_true_is_false; intros E';
          apply Qeq_bool_iff in E'; lra).
    rewrite (Qnum_sign n) by lra. exact I.
  - apply Qeq_bool_neq in E. apply rnd_nonneg.
    apply Qle_shift_div_l; lra.
Qed.

Lemma div_antitone (n t1 t2 : Q) :
  0 < n -> 0 <= t1 -> t1 <= t2 ->
  float_le (f64.div (Rat n) (Rat t2)) (f64.div (Rat n) (Rat t1)).
Proof.
  intros Hn H1 H12. unfold f64.div.
  assert (En : Qeq_bool n 0 = false)
    by (apply not_true_is_false; intros E'; apply Qeq_bool_iff in E'; lra).
  rewrite En, (Qnum_sign n) by lra.
  destruct (Qeq_bool t1 0) eqn:E1.
  - destruct (Qeq_bool t2 0); [exact I|apply float_le_rnd_inf].
  - apply Qeq_bool_neq in E1. assert (P1 : 0 < t1) by lra.
    assert (P2 : 0 < t2) by lra.
    replace (Qeq_bool t2 0) with false
      by (symmetry; apply not_true_is_false; intros E';
          apply Qeq_bool_iff in E'; lra).
    apply rnd_mono.
    + apply Qle_shift_div_l; lra.
    + unfold Qdiv. apply Qmult_le_l; [exact Hn|].
      destruct (Qle_lt_or_eq _ _ H12) as [Hlt|Heq].
      * apply Qlt_le_weak. apply -> Qinv_lt_contravar; assumption.
      * rewrite Heq. apply Qle_refl.
Qed.

End DoubleOrder.

(** ** Median and 50th percentile in double arithmetic *)

Section DoubleMedian.

Local Open Scope Q_scope.

Lemma firstn_1_skipn (l : list Q) (k : nat) :
  (k < length l)%nat -> firstn 1 (skipn k l) = [np.item l k].
Proof.
  unfold np.item. revert k. induction l as [|x l IH]; intros k Hk.
  - simpl in Hk. lia.
  - destruct k as [|k]; [reflexivity|]. simpl. apply IH. simpl in Hk. lia.
Qed.

(** The mean of a single double is that double. *)
Lemma f64_mean_singleton (x v : Q) :
  rnd x = Rat v -> v == x -> f64.mean [Rat x] = Rat v.
Proof.
  intros Hr Hv. unfold f64.mean.
  change (f64.sum [Rat x]) with (rnd (0 + x)).
  rewrite (rnd_comp (0 + x) x) by ring. rewrite Hr.
  replace (f64.of_nat (length [Rat x])) with (Rat 1)
    by (vm_compute; reflexivity).
  change (f64.div (Rat v) (Rat 1)) with (rnd (v / 1)).
  rewrite (rnd_comp (v / 1) x) by (rewrite Hv; field). exact Hr.
Qed.

Lemma f64_median_odd (a : list Q) (k : nat) (v : Q) :
  length a = (2 * k + 1)%nat ->
  rnd (np.item (np.sort a) k) = Rat v -> v == np.item (np.sort a) k ->
  f64.median_of a = Rat v.
Proof.
  intros Hn Hr Hv. unfold f64.median_of. rewrite Hn.
  replace (Nat.even (2 * k + 1)) with false
    by (symmetry; rewrite Nat.add_1_r, Nat.even_succ, <- Nat.negb_even;
        apply negb_false_iff, Nat.even_spec; exists k; reflexivity).
  replace ((2 * k + 1) / 2)%nat with k
    by (apply (Nat.div_unique _ 2 k 1); lia).
  rewrite firstn_1_skipn by (rewrite sort_length; lia).
  apply f64_mean_singleton; assumption.
Qed.

Lemma f64_sub_self (x : Q) : f64.sub (Rat x) (Rat x) = Rat 0.
Proof.
  change (f64.sub (Rat x) (Rat x)) with (rnd (x + - x)).
  rewrite (rnd_comp (x + - x) 0) by ring. reflexivity.
Qed.

Lemma f64_mul_0_r (d : Q) : f64.mul (Rat d) (Rat 0) = Rat 0.
Proof.
  change (f64.mul (Rat d) (Rat 0)) with (rnd (d * 0)).
  rewrite (rnd_comp (d * 0) 0) by ring. reflexivity.
Qed.

Lemma f64_add_0_r (x v : Q) :
  rnd x = Rat v -> f64.add (Rat x) (Rat 0) = Rat v.
Proof.
  intros Hr. change (f64.add (Rat x) (Rat 0)) with (rnd (x + 0)).
  rewrite (rnd_comp (x + 0) x) by ring. exact Hr.
Qed.

Lemma f64_sub_0_r (x v : Q) :
  rnd x = Rat v -> f64.sub (Rat x) (Rat 0) = Rat v.
Proof.
  intros Hr. change (f64.sub (Rat x) (Rat 0)) with (rnd (x + - 0)).
  rewrite (rnd_comp (x + - 0) x) by ring. exact Hr.
Qed.

(** The difference of two doubles [0 <= x <= y] does not overflow. *)
Lemma f64_sub_finite (x y : Q) :
  0 <= x -> x <= y -> is_double y -> exists d, f64.sub (Rat y) (Rat x) = Rat d.
Proof.
  intros Hx Hxy [vy [Hy Hvy]].
  change (f64.sub (Rat y) (Rat x)) with (rnd (y + - x)).
  assert (H0 : 0 <= y + - x) by lra.
  assert (H1 : y + - x <= y) by lra.
  pose proof (rnd_mono _ _ H0 H1) as Hm. rewrite Hy in Hm.
  pose proof (rnd_nonneg _ H0) as Hp.
  destruct (rnd (y + - x)) as [d|[|]|]; simpl in *; try contradiction.
  exists d. reflexivity.
Qed.

Lemma f64_percentile_50_odd (a : list Q) (k : nat) (v : Q) :
  length a = (2 * k + 1)%nat -> (Z.of_nat (length a) < 2 ^ 53)%Z ->
  (forall s, In s a -> 0 <= s /\ is_double s) ->
  rnd (np.item (np.sort a) k) = Rat v ->
  f64.percentile_of a (f64.literal (1 # 2)) = Rat v.
Proof.
  intros Hn Hlen Hall Hr.
  replace (f64.literal (1 # 2)) with (1 # 2) by (vm_compute; reflexivity).
  unfold f64.percentile_of. rewrite Hn. cbv zeta.
  replace (2 * k + 1 - 1)%nat with (2 * k)%nat by lia.
  destruct (is_double_nat (2 * k)) as [w [Hw Hwq]]; [lia|].
  destruct (is_double_nat k) as [u [Hu Huq]]; [lia|].
  rewrite Hw.
  change (f64.mul (Rat w) (Rat (1 # 2))) with (rnd (w * (1 # 2))).
  assert (Ek : w * (1 # 2) == inject_Z (Z.of_nat k)).
  { rewrite Hwq, Nat2Z.inj_mul, inject_Z_mult.
    change (inject_Z (Z.of_nat 2)) with 2. field. }
  rewrite (rnd_comp _ _ Ek). fold (f64.of_nat k). rewrite Hu.
  set (s := np.sort a) in *.
  destruct k as [|k].
  - (* one sample *)
    assert (Eu : u == 0) by (rewrite Huq; reflexivity).
    replace (Qle_bool (inject_Z (Z.of_nat (2 * 0))) u) with true
      by (symmetry; apply Qle_bool_iff; rewrite Eu; apply Qle_refl).
    change (2 * 0 + 1 - 1)%nat with 0%nat.
    change (f64.sub (Rat u) (Rat (inject_Z (-1)))) with (rnd (u + - inject_Z (-1))).
    rewrite (rnd_comp (u + - inject_Z (-1)) 1) by (rewrite Eu; reflexivity).
    replace (rnd 1) with (Rat 1) by (vm_compute; reflexivity).
    unfold f64.lerp. rewrite f64_sub_self.
    replace (Qle_bool (1 # 2) 1) with true by reflexivity.
    rewrite f64_sub_self, f64_mul_0_r.
    apply f64_sub_0_r. exact Hr.
  - (* three samples or more *)
    set (K := S k) in *.
    assert (Eu : u == inject_Z (Z.of_nat K)) by exact Huq.
    replace (Qle_bool (inject_Z (Z.of_nat (2 * K))) u) with false.
    2:{ symmetry. apply not_true_is_false. intros E.
        apply Qle_bool_iff in E. rewrite Eu in E.
        rewrite <- Zle_Qle in E. lia. }
    rewrite (Qfloor_comp _ _ Eu), Qfloor_Z, Nat2Z.id.
    change (f64.sub (Rat u) (Rat (inject_Z (Z.of_nat K))))
      with (rnd (u + - inject_Z (Z.of_nat K))).
    rewrite (rnd_comp (u + - inject_Z (Z.of_nat K)) 0) by (rewrite Eu; ring).
    rewrite rnd_0. unfold f64.lerp.
    replace (Qle_bool (1 # 2) 0) with false by reflexivity.
    destruct (Hall _ (item_sort_In a K ltac:(lia))) as [Hx0 _].
    destruct (Hall _ (item_sort_In a (S K) ltac:(lia))) as [_ Hyd].
    fold s in Hx0, Hyd.
    pose proof (item_sort_le a K (S K) ltac:(lia) ltac:(lia)) as Hle.
    fold s in Hle.
    destruct (f64_sub_finite _ _ Hx0 Hle Hyd) as [d Hd].
    rewrite Hd, f64_mul_0_r.
    apply f64_add_0_r. exact Hr.
Qed.

End DoubleMedian.

(** * The claims that depend on double arithmetic *)



(** C4, as the code behaves: in exact arithmetic the median and the 50th
    percentile of a non-empty sample sequence are the same number.  The
    program computes them in doubles by different formulas, the mean of the
    middle values and an interpolation.  For an odd number of samples that
    are not negative both are the middle sample, and the median line and
    the percentile-50 line show the same time and the same speed. *)
Theorem median_and_percentile_50 (a : list Q) (n : float) :
  a <> [] ->
  (np.median_of a == np.percentile_of a 50)%Q /\
  (Nat.odd (length a) = true ->
   Z.of_nat (length a) < 2 ^ 53 ->
   (forall s, In s a -> (0 <= s)%Q /\ is_double s) ->
   f64.median a = f64.percentile a 50 /\
   exists t s : string,
     f64.report a n !! 2%nat =
       Some ("median time: " ++ t ++ " ms; median speed: " ++ s ++ " fps")%string /\
     f64.report a n !! 6%nat =
       Some ("time percentile 50: " ++ t ++
             " ms; speed percentile 50: " ++ s ++ " fps")%string).
Proof.
  intros Hne. split; [symmetry; apply percentile_50_median; exact Hne|].
  intros Hodd Hlen Hall.
  apply Nat.odd_spec in Hodd. destruct Hodd as [k Hk].
  destruct (Hall _ (item_sort_In a k ltac:(lia))) as [_ [v [Hv Hvq]]].
  pose proof (f64_median_odd a k v Hk Hv Hvq) as Hmed.
  pose proof (f64_percentile_50_odd a k v Hk Hlen Hall Hv) as Hp50.
  split.
  - destruct a as [|x l]; [congruence|].
    rewrite f64_percentile_50. unfold f64.median.
    rewrite Hmed, Hp50. reflexivity.
  - exists (format_2f (f64.round2 (Rat v))),
           (format_2f (f64.round2 (f64.div n (Rat v)))).
    unfold f64.report. simpl lookup. rewrite Hmed, Hp50.
    split; reflexivity.
Qed.

Lemma median_and_percentile_50_witness :
  f64.median [30; 10; 20]%Q = f64.percentile [30; 10; 20]%Q 50.
Proof.
  apply (median_and_percentile_50 [30; 10; 20]%Q (Rat 1000)).
  - discriminate.
  - reflexivity.
  - vm_compute. reflexivity.
  - intros s Hs. simpl in Hs.
    destruct Hs as [<-|[<-|[<-|[]]]];
      (split; [discriminate|eexists; split; vm_compute; reflexivity]).
Defined.

(** C4 as stated fails: for the samples 0.01 and 0.06 the program shows a
    median of 0.03 ms and a 50th percentile of 0.04 ms. *)
Lemma median_differs_from_percentile_50 :
  fst (f64.print_statistics [f64.literal 0.01; f64.literal 0.06] 1 []) !! 2%nat =
    Some "median time: 0.03 ms; median speed: 28571.43 fps"%string /\
  fst (f64.print_statistics [f64.literal 0.01; f64.literal 0.06] 1 []) !! 6%nat =
    Some "time percentile 50: 0.04 ms; speed percentile 50: 28571.43 fps"%string /\
  f64.median [f64.literal 0.01; f64.literal 0.06] <>
  f64.percentile [f64.literal 0.01; f64.literal 0.06] 50.
Proof.
  split; [vm_compute; reflexivity|].
  split; [vm_compute; reflexivity|].
  vm_compute. intros H. discriminate H.
Qed.

(** C5, as the code behaves: for a positive batch size (with
    [1000 * batch_size] below [2^53]) and times that are not negative, the
    throughput [1000 * batch_size / t] computed in doubles never rises when
    [t] grows, before and after the rounding to two decimals; it need not
    fall.  The line of the maximum time carries the throughput of that
    maximum under the label "min speed", the line of the minimum time that
    of the minimum under "max speed", and the throughput of every sample
    lies between the two. *)
Theorem throughput_never_rises_with_time (a : list Q) (batch_size : Z) :
  a <> [] -> (forall s, In s a -> (0 <= s)%Q) ->
  0 < batch_size -> 1000 * batch_size < 2 ^ 53 ->
  exists n,
    f64.of_int (1000 * batch_size) = Ok n /\
    (forall t1 t2, (0 <= t1)%Q -> (t1 <= t2)%Q ->
       float_le (f64.div n (Rat t2)) (f64.div n (Rat t1)) /\
       float_le (f64.round2 (f64.div n (Rat t2)))
                (f64.round2 (f64.div n (Rat t1)))) /\
    fst (f64.print_statistics a batch_size []) !! 3%nat =
      Some (f64.stat_line "max time: " " ms; min speed: " " fps"
              n (Rat (the_max a))) /\
    fst (f64.print_statistics a batch_size []) !! 4%nat =
      Some (f64.stat_line "min time: " " ms; max speed: " " fps"
              n (Rat (the_min a))) /\
    (forall s, In s a ->
       float_le (f64.round2 (f64.div n (Rat (the_max a))))
                (f64.round2 (f64.div n (Rat s))) /\
       float_le (f64.round2 (f64.div n (Rat s)))
                (f64.round2 (f64.div n (Rat (the_min a))))).
Proof.
  intros Hne Hpos Hb Hlt.
  destruct (of_int_exact (1000 * batch_size)) as [n [Hn Hq]]; [lia|].
  assert (Hn0 : (0 < n)%Q).
  { rewrite Hq. change 0%Q with (inject_Z 0). rewrite <- Zlt_Qlt. lia. }
  assert (Hmono : forall t1 t2, (0 <= t1)%Q -> (t1 <= t2)%Q ->
     float_le (f64.div (Rat n) (Rat t2)) (f64.div (Rat n) (Rat t1)) /\
     float_le (f64.round2 (f64.div (Rat n) (Rat t2)))
              (f64.round2 (f64.div (Rat n) (Rat t1)))).
  { intros t1 t2 H1 H12.
    pose proof (div_antitone n t1 t2 Hn0 H1 H12) as Hd.
    split; [exact Hd|].
    apply round2_mono; [|exact Hd]. apply div_nonneg; [exact Hn0|lra]. }
  exists (Rat n). split; [exact Hn|]. split; [exact Hmono|].
  assert (Hrun : fst (f64.print_statistics a batch_size []) =
                 f64.report a (Rat n)).
  { destruct a as [|x l]; [congruence|].
    rewrite (f64_print_statistics_nonempty x l batch_size (Rat n) [] Hn).
    reflexivity. }
  rewrite Hrun. split; [reflexivity|]. split; [reflexivity|].
  intros s Hs. split.
  - apply Hmono; [apply Hpos; exact Hs|apply the_max_ge; exact Hs].
  - apply Hmono; [apply Hpos, the_min_In, Hne|apply the_min_le; exact Hs].
Qed.

Lemma throughput_never_rises_with_time_witness :
  exists n,
    f64.of_int (1000 * 4) = Ok n /\
    (forall t1 t2, (0 <= t1)%Q -> (t1 <= t2)%Q ->
       float_le (f64.div n (Rat t2)) (f64.div n (Rat t1)) /\
       float_le (f64.round2 (f64.div n (Rat t2)))
                (f64.round2 (f64.div n (Rat t1)))) /\
    fst (f64.print_statistics [10; 20; 30; 40; 50]%Q 4 []) !! 3%nat =
      Some (f64.stat_line "max time: " " ms; min speed: " " fps"
              n (Rat (the_max [10; 20; 30; 40; 50]%Q))) /\
    fst (f64.print_statistics [10; 20; 30; 40; 50]%Q 4 []) !! 4%nat =
      Some (f64.stat_line "min time: " " ms; max speed: " " fps"
              n (Rat (the_min [10; 20; 30; 40; 50]%Q))) /\
    (forall s, In s [10; 20; 30; 40; 50]%Q ->
       float_le (f64.round2 (f64.div n (Rat (the_max [10; 20; 30; 40; 50]%Q))))
                (f64.round2 (f64.div n (Rat s))) /\
       float_le (f64.round2 (f64.div n (Rat s)))
                (f64.round2 (f64.div n (Rat (the_min [10; 20; 30; 40; 50]%Q))))).
Proof.
  apply (throughput_never_rises_with_time [10; 20; 30; 40; 50]%Q 4).
  - discriminate.
  - intros s Hs. simpl in Hs.
    repeat (destruct Hs as [<-|Hs]; [discriminate|]). destruct Hs.
  - lia.
  - lia.
Defined.

(** The throughput need not fall even before it is rounded to two
    decimals: 1.52 and the next double above it give the same quotient. *)
Example equal_throughput_for_distinct_times :
  (f64.literal 1.52 < f64.literal 1.5200000000000002)%Q /\
  f64.div (Rat 1000) (Rat (f64.literal 1.52)) =
  f64.div (Rat 1000) (Rat (f64.literal 1.5200000000000002)).
Proof. split; vm_compute; reflexivity. Qed.

Lemma population_variance_sum (m : Q) (a : list Q) :
  (np.sum (map (fun x => (x - m) * (x - m)) a) ==
   List.fold_right (fun x acc => (x - m) * (x - m) + acc) 0 a)%Q.
Proof.
  unfold np.sum. induction a as [|x a IH]; simpl; [reflexivity|].
  rewrite IH. reflexivity.
Qed.

(** The exact variance of [np.var] is the population variance. *)
Lemma var_of_population_variance (a : list Q) :
  (np.var_of a == population_variance a)%Q.
Proof.
  unfold np.var_of, population_variance. cbv zeta.
  unfold np.mean at 1. rewrite size_map, population_variance_sum.
  reflexivity.
Qed.

Lemma f64_var_of_singleton (x : Q) :
  is_double x -> f64.var_of [Rat x] = Rat 0.
Proof.
  intros [v [Hv Hq]]. unfold f64.var_of. cbv zeta.
  rewrite (f64_mean_singleton x v Hv Hq). simpl map.
  change (f64.sub (Rat x) (Rat v)) with (rnd (x + - v)).
  rewrite (rnd_comp (x + - v) 0) by (rewrite Hq; ring).
  rewrite rnd_0. vm_compute. reflexivity.
Qed.

(** C10, as the code behaves: the variance is the population variance
    (divisor N, not N - 1) computed in doubles: the squared deviations from
    the computed mean are summed and divided by the number of samples, and
    the standard deviation is the square root of that double.  In exact
    arithmetic this is the mean of the squared deviations from the mean.
    The two lines show these doubles rounded to two decimals; for a single
    sample both show 0.00.  Samples 1 and 3 give the variance 1, where the
    divisor N - 1 would give 2. *)
Theorem population_variance_and_deviation (a : list Q) (n : float) :
  a <> [] ->
  (np.var_of a == population_variance a)%Q /\
  (exists v,
     v = f64.div
           (f64.sum (map (fun x => f64.mul (f64.sub x (f64.mean (f64.asarray a)))
                                            (f64.sub x (f64.mean (f64.asarray a))))
                         (f64.asarray a)))
           (f64.of_nat (length a)) /\
     f64.var a = Ok v /\
     f64.std a = Ok (f64.sqrt v) /\
     f64.report a n !! 7%nat =
       Some (format1 "time standard deviation: " (f64.round2 (f64.sqrt v))) /\
     f64.report a n !! 8%nat =
       Some (format1 "time variance: " (f64.round2 v))) /\
  (forall x, a = [x] -> is_double x ->
     f64.report a n !! 7%nat = Some "time standard deviation: 0.00"%string /\
     f64.report a n !! 8%nat = Some "time variance: 0.00"%string) /\
  f64.var [1; 3]%Q = Ok (Rat 1) /\ f64.std [1; 3]%Q = Ok (Rat 1).
Proof.
  intros Hne. split; [apply var_of_population_variance|].
  split; [|split].
  - eexists. split; [reflexivity|].
    assert (E : f64.var_of (f64.asarray a) =
      f64.div
        (f64.sum (map (fun x => f64.mul (f64.sub x (f64.mean (f64.asarray a)))
                                         (f64.sub x (f64.mean (f64.asarray a))))
                      (f64.asarray a)))
        (f64.of_nat (length a))).
    { unfold f64.var_of. cbv zeta. rewrite map_map.
      unfold f64.asarray at 4. rewrite length_map. reflexivity. }
    unfold f64.var, f64.std, f64.report. rewrite E.
    repeat split; reflexivity.
  - intros x -> Hx. unfold f64.report. simpl lookup.
    change (f64.asarray [x]) with [Rat x].
    rewrite (f64_var_of_singleton x Hx). split; vm_compute; reflexivity.
  - split; vm_compute; reflexivity.
Qed.

Lemma population_variance_and_deviation_witness :
  (np.var_of [10; 20; 30; 40; 50] == population_variance [10; 20; 30; 40; 50])%Q.
Proof.
  apply (population_variance_and_deviation [10; 20; 30; 40; 50]%Q (Rat 4000)).
  discriminate.
Defined.

(** C10 as stated fails: for the samples 0, 0, 0.1 and 0.3 the program
    reports the variance 0.02, while the mean of the squared deviations of
    these four doubles from their mean is shown as 0.01. *)
Lemma reported_variance_differs_from_exact :
  fst (f64.print_statistics
         [0; 0; f64.literal 0.1; f64.literal 0.3]%Q 1 []) !! 8%nat =
    Some "time variance: 0.02"%string /\
  format_2f (Rat (population_variance
                    [0; 0; f64.literal 0.1; f64.literal 0.3]%Q)) =
    "0.01"%string.
Proof. split; vm_compute; reflexivity. Qed.

(** ** The pairwise summation never runs out of fuel *)

Lemma pairwise_sum_unfold (fuel : nat) (l : list float) :
  f64.pairwise_sum fuel l =
  if (length l <? 8)%nat then f64.seq_add (Rat 0) l
  else if (length l <=? 128)%nat then f64.block_sum l
  else
    match fuel with
    | O => NaN
    | S fuel' =>
        let n2 := (length l / 2 - (length l / 2) mod 8)%nat in
        f64.add (f64.pairwise_sum fuel' (firstn n2 l))
                (f64.pairwise_sum fuel' (skipn n2 l))
    end.
Proof. destruct fuel; reflexivity. Qed.

Lemma half_block_bounds (n : nat) :
  (128 < n)%nat ->
  (0 < n / 2 - (n / 2) mod 8 < n)%nat.
Proof.
  intros H.
  pose proof (Nat.mod_upper_bound (n / 2) 8 ltac:(lia)).
  pose proof (Nat.div_lt n 2 ltac:(lia) ltac:(lia)).
  assert (64 <= n / 2)%nat by (apply Nat.div_le_lower_bound; lia).
  lia.
Qed.

Lemma pairwise_sum_fuel (f1 : nat) : forall (f2 : nat) (l : list float),
  (length l <= f1)%nat -> (length l <= f2)%nat ->
  f64.pairwise_sum f1 l = f64.pairwise_sum f2 l.
Proof.
  induction f1 as [|f1 IH]; intros f2 l H1 H2;
    rewrite (pairwise_sum_unfold _ l), (pairwise_sum_unfold f2 l);
    destruct (length l <? 8)%nat eqn:E8; try reflexivity;
    destruct (length l <=? 128)%nat eqn:E128; try reflexivity;
    apply Nat.ltb_ge in E8; apply Nat.leb_gt in E128; try lia.
  destruct f2 as [|f2]; [lia|].
  pose proof (half_block_bounds (length l) E128) as Hn2.
  cbv zeta.
  rewrite (IH f2 (firstn _ l)), (IH f2 (skipn _ l));
    try reflexivity;
    rewrite ?length_firstn, ?length_skipn; lia.
Qed.

(** With more than 128 values the sum is that of two halves, the first
    a multiple of eight long; with fewer the recursion is not entered. *)
Lemma sum_split (l : list float) :
  (128 < length l)%nat ->
  let n2 := (length l / 2 - (length l / 2) mod 8)%nat in
  f64.sum l = f64.add (f64.sum (firstn n2 l)) (f64.sum (skipn n2 l)).
Proof.
  intros H n2. unfold f64.sum.
  rewrite (pairwise_sum_fuel (length l) (S (length l)) l) by lia.
  rewrite pairwise_sum_unfold.
  replace (length l <? 8)%nat with false by (symmetry; apply Nat.ltb_ge; lia).
  replace (length l <=? 128)%nat with false by (symmetry; apply Nat.leb_gt; lia).
  pose proof (half_block_bounds (length l) H) as Hn2.
  cbv zeta. fold n2. fold n2 in Hn2.
  rewrite (pairwise_sum_fuel (length l) (length (firstn n2 l)) (firstn n2 l)),
          (pairwise_sum_fuel (length l) (length (skipn n2 l)) (skipn n2 l));
    try reflexivity;
    rewrite ?length_firstn, ?length_skipn; lia.
Qed.

(** ** The double model on concrete inputs *)

Example f64_print_statistics_scenario :
  f64.print_statistics [10; 20; 30; 40; 50]%Q 4 [] =
  ([ header;
     "average time: 30.00 ms; average speed: 133.33 fps";
     "median time: 30.00 ms; median speed: 133.33 fps";
     "max time: 50.00 ms; min speed: 80.00 fps";
     "min time: 10.00 ms; max speed: 400.00 fps";
     "time percentile 90: 46.00 ms; speed percentile 90: 86.96 fps";
     "time percentile 50: 30.00 ms; speed percentile 50: 133.33 fps";
     "time standard deviation: 14.14";
     "time variance: 200.00" ]%string, Ok tt).
Proof. vm_compute. reflexivity. Qed.

(** A tie that is only a tie after the product with 100 is rounded: the
    double 0.005 lies above 5/1000 and is shown as 0.00. *)
Example f64_round2_of_half_a_hundredth :
  (5 # 1000 < f64.literal 0.005)%Q /\
  format_2f (f64.round2 (Rat (f64.literal 0.005))) = "0.00"%string /\
  format_2f (Rat (f64.literal 0.005)) = "0.01"%string.
Proof. repeat split; vm_compute; reflexivity. Qed.

(** The computed average can leave the range of the samples, and it
    depends on their order. *)
Example f64_average_outside_range :
  fst (f64.print_statistics (map f64.literal [0.105; 0.105; 0.105; 0.105; 0.105]%Q)
         1 []) !! 1%nat =
    Some "average time: 0.11 ms; average speed: 9523.81 fps"%string /\
  fst (f64.print_statistics (map f64.literal [0.105; 0.105; 0.105; 0.105; 0.105]%Q)
         1 []) !! 3%nat =
    Some "max time: 0.10 ms; min speed: 9523.81 fps"%string.
Proof. split; vm_compute; reflexivity. Qed.

Example f64_average_depends_on_order :
  fst (f64.print_statistics (map f64.literal [0.964; 0.517; 0.424]%Q) 1 []) !! 1%nat =
    Some "average time: 0.63 ms; average speed: 1574.80 fps"%string /\
  fst (f64.print_statistics (map f64.literal [0.517; 0.424; 0.964]%Q) 1 []) !! 1%nat =
    Some "average time: 0.64 ms; average speed: 1574.80 fps"%string.
Proof. split; vm_compute; reflexivity. Qed.

Example f64_empty :
  f64.print_statistics [] 4 [] =
  ([ header;
     "average time: nan ms; average speed: nan fps";
     "median time: nan ms; median speed: nan fps" ]%string,
   Raise max_of_empty).
Proof. vm_compute. reflexivity. Qed.

Example f64_batch_size_out_of_range :
  f64.print_statistics [1%Q] (10 ^ 400) [] =
  ([header], Raise (OverflowError "int too large to convert to float")).
Proof. vm_compute. reflexivity. Qed.

(** * Order statistics in double arithmetic *)

Section DoubleSorted.

Local Open Scope Q_scope.

Lemma Forall2_Qeq_refl (l : list Q) : Forall2 Qeq l l.
Proof. induction l; constructor; [reflexivity|assumption]. Qed.

Lemma Forall2_Qeq_trans (l1 l2 l3 : list Q) :
  Forall2 Qeq l1 l2 -> Forall2 Qeq l2 l3 -> Forall2 Qeq l1 l3.
Proof.
  intros H. revert l3. induction H as [|x y l1 l2 Hxy H IH]; intros l3 H3.
  - exact H3.
  - inversion H3; subst. constructor; [|apply IH; assumption].
    eapply Qeq_trans; eassumption.
Qed.

Lemma Qle_bool_comp_r (x y y' : Q) : y == y' -> Qle_bool x y = Qle_bool x y'.
Proof.
  intros H. destruct (Qle_bool x y) eqn:E, (Qle_bool x y') eqn:E';
    try reflexivity.
  - apply Qle_bool_iff in E. rewrite H in E. apply Qle_bool_iff in E.
    congruence.
  - apply Qle_bool_iff in E'. rewrite <- H in E'. apply Qle_bool_iff in E'.
    congruence.
Qed.

Lemma insert_sorted_Qeq (x : Q) (l l' : list Q) :
  Forall2 Qeq l l' ->
  Forall2 Qeq (np.insert_sorted x l) (np.insert_sorted x l').
Proof.
  induction 1 as [|y y' l l' Hy H IH]; simpl.
  - apply Forall2_Qeq_refl.
  - rewrite (Qle_bool_comp_r x y y' Hy). destruct (Qle_bool x y').
    + constructor; [reflexivity|]. constructor; assumption.
    + constructor; assumption.
Qed.

(** Two insertions give the same data in either order. *)
Lemma insert_sorted_comm (x y : Q) (l : list Q) :
  Forall2 Qeq (np.insert_sorted x (np.insert_sorted y l))
              (np.insert_sorted y (np.insert_sorted x l)).
Proof.
  induction l as [|z l IH]; simpl.
  - destruct (Qle_bool x y) eqn:Exy, (Qle_bool y x) eqn:Eyx.
    + apply Qle_bool_iff in Exy, Eyx.
      assert (x == y) by (apply Qle_antisym; assumption).
      repeat constructor; [assumption|symmetry; assumption].
    + apply Forall2_Qeq_refl.
    + apply Forall2_Qeq_refl.
    + apply Qle_bool_false in Exy, Eyx. lra.
  - destruct (Qle_bool y z) eqn:Eyz, (Qle_bool x z) eqn:Exz; simpl;
      destruct (Qle_bool x y) eqn:Exy, (Qle_bool y x) eqn:Eyx;
      rewrite ?Exz, ?Eyz;
      try (apply Qle_bool_iff in Exy); try (apply Qle_bool_iff in Eyx);
      try (apply Qle_bool_iff in Exz); try (apply Qle_bool_iff in Eyz);
      try (apply Qle_bool_false in Exy); try (apply Qle_bool_false in Eyx);
      try (apply Qle_bool_false in Exz); try (apply Qle_bool_false in Eyz);
      try (exfalso; lra);
      try apply Forall2_Qeq_refl;
      try (constructor; [reflexivity|exact IH]).
    + assert (x == y) by (apply Qle_antisym; assumption).
      constructor; [assumption|].
      constructor; [symmetry; assumption|apply Forall2_Qeq_refl].
Qed.

(** Sorting two arrangements of the same samples gives the same values,
    position by position. *)
Lemma sort_Permutation (a b : list Q) :
  Permutation a b -> Forall2 Qeq (np.sort a) (np.sort b).
Proof.
  induction 1 as [|x a b H IH|x y a|a b c H1 IH1 H2 IH2]; simpl.
  - constructor.
  - apply insert_sorted_Qeq. exact IH.
  - apply insert_sorted_comm.
  - eapply Forall2_Qeq_trans; eassumption.
Qed.

Lemma item_Qeq (l l' : list Q) (i : nat) :
  Forall2 Qeq l l' -> np.item l i == np.item l' i.
Proof.
  unfold np.item. intros H. revert i.
  induction H as [|x y l l' Hxy H IH]; intros [|i]; simpl;
    try reflexivity; [exact Hxy|apply IH].
Qed.

Lemma Permutation_nonempty (a b : list Q) : Permutation a b -> a <> [] -> b <> [].
Proof.
  intros H Hne ->. apply Hne. apply Permutation_nil. symmetry. exact H.
Qed.

Lemma the_max_Permutation (a b : list Q) :
  Permutation a b -> the_max a == the_max b.
Proof.
  intros H. destruct a as [|x a'].
  - apply Permutation_nil in H. subst b. reflexivity.
  - assert (Ha : x :: a' <> []) by discriminate.
    pose proof (Permutation_nonempty _ _ H Ha) as Hb.
    apply Qle_antisym.
    + apply the_max_ge. apply (Permutation_in _ H). apply the_max_In. exact Ha.
    + apply the_max_ge. apply (Permutation_in _ (Permutation_sym H)).
      apply the_max_In. exact Hb.
Qed.

Lemma the_min_Permutation (a b : list Q) :
  Permutation a b -> the_min a == the_min b.
Proof.
  intros H. destruct a as [|x a'].
  - apply Permutation_nil in H. subst b. reflexivity.
  - assert (Ha : x :: a' <> []) by discriminate.
    pose proof (Permutation_nonempty _ _ H Ha) as Hb.
    apply Qle_antisym.
    + apply the_min_le. apply (Permutation_in _ (Permutation_sym H)).
      apply the_min_In. exact Hb.
    + apply the_min_le. apply (Permutation_in _ H). apply the_min_In. exact Ha.
Qed.

(** The double operations depend on the value of an operand, not on the
    fraction that stands for it. *)
Lemma f64_add_comp_r (x : float) (q q' : Q) :
  q == q' -> f64.add x (Rat q) = f64.add x (Rat q').
Proof.
  intros H. destruct x as [p|b|]; simpl; try reflexivity.
  apply rnd_comp. rewrite H. reflexivity.
Qed.

Lemma f64_add_comp_l (q q' : Q) (y : float) :
  q == q' -> f64.add (Rat q) y = f64.add (Rat q') y.
Proof.
  intros H. destruct y as [p|b|]; simpl; try reflexivity.
  apply rnd_comp. rewrite H. reflexivity.
Qed.

Lemma f64_sub_comp_l (q q' : Q) (y : float) :
  q == q' -> f64.sub (Rat q) y = f64.sub (Rat q') y.
Proof. intros H. unfold f64.sub. apply f64_add_comp_l. exact H. Qed.

Lemma f64_sub_comp_r (x : float) (q q' : Q) :
  q == q' -> f64.sub x (Rat q) = f64.sub x (Rat q').
Proof.
  intros H. unfold f64.sub. simpl f64.neg. apply f64_add_comp_r.
  rewrite H. reflexivity.
Qed.

Lemma f64_div_comp_r (n : float) (t t' : Q) :
  t == t' -> f64.div n (Rat t) = f64.div n (Rat t').
Proof.
  intros H. destruct n as [p|b|]; simpl; try reflexivity.
  - rewrite (Qeq_bool_comp t t' H). destruct (Qeq_bool t' 0) eqn:E;
      [reflexivity|].
    apply rnd_comp. rewrite H. reflexivity.
  - rewrite (Qnum_sign_comp t t' H). reflexivity.
Qed.

Lemma f64_round2_comp (t t' : Q) :
  t == t' -> f64.round2 (Rat t) = f64.round2 (Rat t').
Proof.
  intros H. unfold f64.round2.
  change (f64.mul (Rat t) (Rat 100)) with (rnd (t * 100)).
  change (f64.mul (Rat t') (Rat 100)) with (rnd (t' * 100)).
  rewrite (rnd_comp (t * 100) (t' * 100)) by (rewrite H; reflexivity).
  reflexivity.
Qed.

Lemma f64_stat_line_comp (pre mid post : string) (n : float) (t t' : Q) :
  t == t' ->
  f64.stat_line pre mid post n (Rat t) = f64.stat_line pre mid post n (Rat t').
Proof.
  intros H. unfold f64.stat_line.
  rewrite (f64_round2_comp t t' H), (f64_div_comp_r n t t' H). reflexivity.
Qed.

Lemma f64_lerp_comp (a a' b b' : Q) (t : float) :
  a == a' -> b == b' ->
  f64.lerp (Rat a) (Rat b) t = f64.lerp (Rat a') (Rat b') t.
Proof.
  intros Ha Hb. unfold f64.lerp. cbv zeta.
  rewrite (f64_sub_comp_r (Rat b) a a' Ha), (f64_sub_comp_l b b' (Rat a') Hb).
  destruct t as [g|s|].
  - destruct (Qle_bool (1 # 2) g).
    + apply f64_sub_comp_l. exact Hb.
    + apply f64_add_comp_l. exact Ha.
  - apply f64_add_comp_l. exact Ha.
  - apply f64_add_comp_l. exact Ha.
Qed.

Lemma f64_percentile_of_Permutation (a b : list Q) (q : Q) :
  Permutation a b -> f64.percentile_of a q = f64.percentile_of b q.
Proof.
  intros H. pose proof (sort_Permutation a b H) as Hs.
  unfold f64.percentile_of. rewrite (Permutation_length H). cbv zeta.
  destruct (f64.mul (f64.of_nat (length b - 1)) (Rat q)); try reflexivity.
  apply f64_lerp_comp; apply item_Qeq; exact Hs.
Qed.

(** The mean of one or two values. *)
Lemma f64_mean_short (l l' : list Q) :
  Forall2 Qeq l l' -> (length l <= 2)%nat ->
  f64.mean (f64.asarray l) = f64.mean (f64.asarray l').
Proof.
  intros H Hlen.
  destruct H as [|x x' l l' Hx H]; [reflexivity|].
  destruct H as [|y y' l l' Hy H].
  - unfold f64.mean, f64.sum. simpl.
    rewrite (rnd_comp (0 + x) (0 + x')) by (rewrite Hx; reflexivity).
    reflexivity.
  - destruct H as [|z z' l l' Hz H]; [|simpl in Hlen; lia].
    unfold f64.mean, f64.sum. simpl.
    rewrite (rnd_comp (0 + x) (0 + x')) by (rewrite Hx; reflexivity).
    rewrite (f64_add_comp_r (rnd (0 + x')) y y' Hy). reflexivity.
Qed.

Lemma f64_median_of_Permutation (a b : list Q) :
  Permutation a b -> f64.median_of a = f64.median_of b.
Proof.
  intros H. pose proof (sort_Permutation a b H) as Hs.
  unfold f64.median_of. rewrite (Permutation_length H). cbv zeta.
  destruct (Nat.even (length b)).
  - apply f64_mean_short.
    + apply Forall2_take, Forall2_drop. exact Hs.
    + rewrite length_firstn. lia.
  - apply f64_mean_short.
    + apply Forall2_take, Forall2_drop. exact Hs.
    + rewrite length_firstn. lia.
Qed.

End DoubleSorted.

(** X4: the order in which the samples are given does not change the
    median, maximum, minimum and percentile lines of the report: for two
    arrangements of the same samples the lines 2 to 6 written by
    [print_statistics] are the same, whatever the batch size.  The average
    line can change, because the sum of doubles depends on the order of
    the additions. *)
Theorem order_statistics_order_irrelevant
    (a b : list Q) (batch_size : Z) :
  Permutation a b ->
  (forall k, (2 <= k <= 6)%nat ->
     fst (f64.print_statistics a batch_size []) !! k =
     fst (f64.print_statistics b batch_size []) !! k) /\
  fst (f64.print_statistics (map f64.literal [0.964; 0.517; 0.424]%Q) 1 [])
    !! 1%nat <>
  fst (f64.print_statistics (map f64.literal [0.517; 0.424; 0.964]%Q) 1 [])
    !! 1%nat.
Proof.
  intros H. split; [|vm_compute; intros E; discriminate E].
  intros k Hk.
  destruct a as [|x a'].
  { apply Permutation_nil in H. subst b. reflexivity. }
  destruct b as [|y b'].
  { apply Permutation_sym, Permutation_nil in H. discriminate H. }
  destruct (f64.of_int (1000 * batch_size)) as [n|e] eqn:Hn.
  - rewrite (f64_print_statistics_nonempty x a' batch_size n [] Hn).
    rewrite (f64_print_statistics_nonempty y b' batch_size n [] Hn).
    simpl fst. rewrite ?app_nil_l. unfold f64.report.
    destruct k as [|[|[|[|[|[|[|k]]]]]]]; try lia; simpl lookup; f_equal.
    + rewrite (f64_median_of_Permutation _ _ H). reflexivity.
    + apply f64_stat_line_comp. exact (the_max_Permutation _ _ H).
    + apply f64_stat_line_comp. exact (the_min_Permutation _ _ H).
    + rewrite (f64_percentile_of_Permutation _ _ _ H). reflexivity.
    + rewrite (f64_percentile_of_Permutation _ _ _ H). reflexivity.
  - rewrite !(f64_print_statistics_overflow _ batch_size e [] Hn).
    reflexivity.
Qed.

Lemma order_statistics_order_irrelevant_witness :
  fst (f64.print_statistics [30; 10; 20]%Q 4 []) !! 2%nat =
  fst (f64.print_statistics [10; 20; 30]%Q 4 []) !! 2%nat.
Proof.
  apply (order_statistics_order_irrelevant [30; 10; 20]%Q [10; 20; 30]%Q 4).
  - apply perm_trans with [10; 30; 20]%Q;
      [apply perm_swap|apply perm_skip, perm_swap].
  - lia.
Defined.

(** * Samples that all have one value *)

Section DoubleConstant.

Local Open Scope Q_scope.

(** Rounding to the nearest integer, ties to even, is symmetric. *)
Lemma round_half_even_opp (z : Q) :
  round_half_even (- z) = (- round_half_even z)%Z.
Proof.
  destruct (Qfloor_bounds z) as [Hlo Hhi].
  destruct (Qeq_dec z (inject_Z (Qfloor z))) as [E|NE].
  - rewrite (round_half_even_comp z _ E), round_half_even_inject_Z.
    rewrite (round_half_even_comp (- z) (inject_Z (- Qfloor z))).
    + apply round_half_even_inject_Z.
    + rewrite inject_Z_opp, <- E. reflexivity.
  - assert (Hlt : inject_Z (Qfloor z) < z).
    { destruct (Qle_lt_or_eq _ _ Hlo) as [H|H]; [exact H|].
      exfalso. apply NE. symmetry. exact H. }
    assert (Ei : inject_Z (- Qfloor z - 1) == - inject_Z (Qfloor z) - 1).
    { unfold Z.sub. rewrite inject_Z_plus, inject_Z_opp. reflexivity. }
    assert (Ef : Qfloor (- z) = (- Qfloor z - 1)%Z).
    { apply Qfloor_unique; rewrite Ei; lra. }
    unfold round_half_even. cbv zeta. rewrite Ef.
    set (f := Qfloor z) in *.
    destruct (z - inject_Z f ?= 1 # 2) eqn:C; qcompare C.
    + replace (- z - inject_Z (- f - 1) ?= 1 # 2) with Eq
        by (symmetry; apply (proj1 (Qeq_alt _ _)); rewrite Ei; lra).
      rewrite Z.even_sub, Z.even_opp.
      destruct (Z.even f); simpl; lia.
    + replace (- z - inject_Z (- f - 1) ?= 1 # 2) with Gt
        by (symmetry; apply (proj1 (Qgt_alt _ _)); rewrite Ei; lra).
      lia.
    + replace (- z - inject_Z (- f - 1) ?= 1 # 2) with Lt
        by (symmetry; apply (proj1 (Qlt_alt _ _)); rewrite Ei; lra).
      lia.
Qed.

Lemma ulp_exp_opp (x : Q) : ulp_exp (- x) = ulp_exp x.
Proof. unfold ulp_exp. rewrite (ilog2_comp _ _ (Qabs_opp x)). reflexivity. Qed.

Lemma nearest_opp (x : Q) : nearest (- x) == - nearest x.
Proof.
  unfold nearest. cbv zeta. rewrite ulp_exp_opp.
  assert (P : ~ pow2 (ulp_exp x) == 0).
  { intros E. pose proof (pow2_pos (ulp_exp x)) as P. rewrite E in P.
    discriminate P. }
  rewrite (round_half_even_comp (- x / pow2 (ulp_exp x))
             (- (x / pow2 (ulp_exp x)))) by (field; exact P).
  rewrite round_half_even_opp, inject_Z_opp. ring.
Qed.

(** The double nearest to [- x] is the opposite of the one nearest to
    [x]. *)
Lemma rnd_opp (x : Q) : rnd (- x) = f64.neg (rnd x).
Proof.
  unfold rnd. destruct (Qeq_bool x 0) eqn:E.
  - apply Qeq_bool_iff in E.
    replace (Qeq_bool (- x) 0) with true
      by (symmetry; apply Qeq_bool_iff; rewrite E; reflexivity).
    reflexivity.
  - apply Qeq_bool_neq in E.
    replace (Qeq_bool (- x) 0) with false
      by (symmetry; apply not_true_is_false; intros E';
          apply Qeq_bool_iff in E'; apply E; lra).
    rewrite (Qle_bool_comp_r (pow2 1024) (Qabs (nearest (- x)))
               (Qabs (nearest x)))
      by (rewrite nearest_opp; apply Qabs_opp).
    destruct (Qle_bool (pow2 1024) (Qabs (nearest x))); simpl.
    + f_equal. destruct x as [n d]. simpl.
      assert (n <> 0%Z).
      { intros ->. apply E. reflexivity. }
      destruct (n <? 0)%Z eqn:L; [apply Z.ltb_lt in L|apply Z.ltb_ge in L].
      * apply Z.ltb_ge. lia.
      * apply Z.ltb_lt. lia.
    + f_equal. rewrite (Qred_complete _ _ (nearest_opp x)).
      apply Qred_opp.
Qed.

Lemma is_double_nearest (x : Q) : is_double x -> nearest x == x.
Proof.
  intros [v [Hv Hq]]. unfold rnd in Hv.
  destruct (Qeq_bool x 0) eqn:E.
  - apply Qeq_bool_iff in E. rewrite (nearest_comp x 0 E), E.
    vm_compute. reflexivity.
  - destruct (Qle_bool (pow2 1024) (Qabs (nearest x))); [discriminate Hv|].
    injection Hv as <-. rewrite Qred_correct in Hq. exact Hq.
Qed.

(** A value between 0 and a double rounds to a double in that range. *)
Lemma rnd_bounded (y c : Q) :
  0 <= y -> y <= c -> is_double c ->
  exists g, rnd y = Rat g /\ 0 <= g /\ g <= c.
Proof.
  intros H0 Hc [w [Hw Hwq]].
  pose proof (rnd_mono _ _ H0 Hc) as Hm. rewrite Hw in Hm.
  pose proof (rnd_nonneg _ H0) as Hp.
  destruct (rnd y) as [g|[|]|]; simpl in *; try contradiction.
  exists g. split; [reflexivity|]. split; [exact Hp|]. rewrite <- Hwq. exact Hm.
Qed.

(** Twice a double is a double, short of overflow. *)
Lemma is_double_twice (x : Q) :
  0 <= x -> x < pow2 1023 -> is_double x -> is_double (x + x).
Proof.
  intros H0 Hlt Hx.
  destruct (Qle_lt_or_eq _ _ H0) as [Hpos|Hz].
  2:{ exists 0. split; [|lra]. rewrite (rnd_comp (x + x) 0) by lra.
      reflexivity. }
  pose proof (is_double_nearest x Hx) as Hn.
  unfold nearest in Hn. cbv zeta in Hn.
  set (m := round_half_even (x / pow2 (ulp_exp x))) in *.
  assert (Pe : forall e, ~ pow2 e == 0).
  { intros e E. pose proof (pow2_pos e) as P. rewrite E in P. discriminate P. }
  assert (Hm : x / pow2 (ulp_exp x) == inject_Z m).
  { rewrite <- Hn at 1. field. apply Pe. }
  destruct (ilog2_spec x Hpos) as [Hlo Hhi].
  assert (P2 : forall k, pow2 (k + 1) == 2 * pow2 k).
  { intros k. rewrite pow2_plus. change (pow2 1) with 2. ring. }
  assert (Hk : ilog2 (x + x) = (ilog2 x + 1)%Z).
  { apply ilog2_unique; [lra|rewrite P2; lra|rewrite P2, P2; rewrite P2 in Hhi; lra]. }
  assert (He : ulp_exp (x + x) = Z.max (ilog2 x + 1 - 52) (-1074))
    by (rewrite ulp_exp_pos by lra; rewrite Hk; reflexivity).
  assert (He0 : ulp_exp x = Z.max (ilog2 x - 52) (-1074))
    by (apply ulp_exp_pos; exact Hpos).
  assert (Hover : x + x < pow2 1024).
  { replace 1024%Z with (1023 + 1)%Z by reflexivity. rewrite P2. lra. }
  destruct (Z_le_gt_dec (-1074) (ilog2 x - 52)) as [Hnorm|Hsub].
  - apply (rnd_exact (x + x) m); [lra|exact Hover|].
    rewrite He. replace (Z.max (ilog2 x + 1 - 52) (-1074))
      with (ulp_exp x + 1)%Z by (rewrite He0; lia).
    rewrite P2, <- Hm. field. apply Pe.
  - apply (rnd_exact (x + x) (2 * m)); [lra|exact Hover|].
    rewrite He. replace (Z.max (ilog2 x + 1 - 52) (-1074))
      with (ulp_exp x) by (rewrite He0; lia).
    rewrite inject_Z_mult, <- Hm. change (inject_Z 2) with 2. field. apply Pe.
Qed.

(** The mean of two equal doubles is that double. *)
Lemma f64_mean_pair_same (x v : Q) :
  rnd x = Rat v -> v == x -> 0 <= x -> x < pow2 1023 ->
  f64.mean [Rat x; Rat x] = Rat v.
Proof.
  intros Hr Hv H0 Hlt.
  assert (Hx : is_double x) by (exists v; split; assumption).
  destruct (is_double_twice x H0 Hlt Hx) as [w [Hw Hwq]].
  unfold f64.mean, f64.sum. simpl f64.pairwise_sum.
  change (f64.add (Rat 0) (Rat x)) with (rnd (0 + x)).
  rewrite (rnd_comp (0 + x) x) by ring. rewrite Hr.
  change (f64.add (Rat v) (Rat x)) with (rnd (v + x)).
  rewrite (rnd_comp (v + x) (x + x)) by (rewrite Hv; reflexivity).
  rewrite Hw.
  replace (f64.of_nat (length [Rat x; Rat x])) with (Rat 2)
    by (vm_compute; reflexivity).
  change (f64.div (Rat w) (Rat 2)) with (rnd (w / 2)).
  rewrite (rnd_comp (w / 2) x) by (rewrite Hwq; field). exact Hr.
Qed.

Lemma constant_replicate (a : list Q) (x : Q) :
  (forall s, In s a -> s = x) -> a = replicate (length a) x.
Proof.
  induction a as [|y a IH]; intros H; [reflexivity|].
  simpl. rewrite (H y) by (left; reflexivity). f_equal.
  apply IH. intros s Hs. apply H. right. exact Hs.
Qed.

Lemma sort_replicate (x : Q) (n : nat) :
  np.sort (replicate n x) = replicate n x.
Proof.
  unfold np.sort. induction n as [|n IH]; [reflexivity|].
  simpl. rewrite IH. destruct n as [|n]; [reflexivity|]. simpl.
  replace (Qle_bool x x) with true
    by (symmetry; apply Qle_bool_iff, Qle_refl).
  reflexivity.
Qed.

Lemma sort_constant (a : list Q) (x : Q) :
  (forall s, In s a -> s = x) -> np.sort a = replicate (length a) x.
Proof.
  intros H. rewrite (constant_replicate a x H) at 1. apply sort_replicate.
Qed.

Lemma item_replicate (x : Q) (n i : nat) :
  (i < n)%nat -> np.item (replicate n x) i = x.
Proof.
  unfold np.item. revert i. induction n as [|n IH]; intros i Hi; [lia|].
  destruct i as [|i]; [reflexivity|]. simpl. apply IH. lia.
Qed.

Lemma f64_median_of_constant (a : list Q) (x v : Q) :
  a <> [] -> (forall s, In s a -> s = x) ->
  rnd x = Rat v -> v == x -> 0 <= x -> x < pow2 1023 ->
  f64.median_of a = Rat v.
Proof.
  intros Hne Hall Hr Hv H0 Hlt.
  assert (Hn : (0 < length a)%nat) by (destruct a; [congruence|simpl; lia]).
  unfold f64.median_of. cbv zeta.
  rewrite (sort_constant a x Hall), !drop_replicate, !take_replicate.
  destruct (Nat.even (length a)) eqn:Ev.
  - assert (H2 : (2 <= length a)%nat).
    { destruct (length a) as [|[|n]]; [lia|discriminate Ev|lia]. }
    pose proof (Nat.div_lt (length a) 2 ltac:(lia) ltac:(lia)).
    replace (2 `min` (length a - (length a / 2 - 1)))%nat with 2%nat by lia.
    apply f64_mean_pair_same; assumption.
  - pose proof (Nat.div_lt (length a) 2 ltac:(lia) ltac:(lia)).
    replace (1 `min` (length a - length a / 2))%nat with 1%nat by lia.
    apply f64_mean_singleton; assumption.
Qed.

(** [1 - g] is a double or rounds to one, for [g] up to an integer below
    [2^53]. *)
Lemma rnd_one_minus_finite (g : Q) (k : Z) :
  0 <= g -> g <= inject_Z k -> (0 <= k < 2 ^ 53)%Z ->
  exists u, rnd (1 + - g) = Rat u.
Proof.
  intros H0 Hk Hr.
  destruct (Qlt_le_dec 1 g) as [Hg|Hg].
  - rewrite (rnd_comp (1 + - g) (- (g - 1))) by ring. rewrite rnd_opp.
    destruct (rnd_bounded (g - 1) (inject_Z k)) as [u [Hu _]];
      [lra|lra|apply is_double_int; exact Hr|].
    rewrite Hu. exists (- u). reflexivity.
  - destruct (rnd_bounded (1 + - g) 1) as [u [Hu _]];
      [lra|lra|apply (is_double_int 1); lia|].
    exists u. exact Hu.
Qed.

Lemma f64_lerp_same (x v g u : Q) :
  rnd x = Rat v -> rnd (1 + - g) = Rat u ->
  f64.lerp (Rat x) (Rat x) (Rat g) = Rat v.
Proof.
  intros Hr Hu. unfold f64.lerp. cbv zeta. rewrite f64_sub_self.
  change (f64.sub (Rat 1) (Rat g)) with (rnd (1 + - g)). rewrite Hu.
  change (f64.mul (Rat 0) (Rat u)) with (rnd (0 * u)).
  change (f64.mul (Rat 0) (Rat g)) with (rnd (0 * g)).
  rewrite (rnd_comp (0 * u) 0), (rnd_comp (0 * g) 0) by ring.
  rewrite rnd_0.
  destruct (Qle_bool (1 # 2) g);
    [apply f64_sub_0_r|apply f64_add_0_r]; exact Hr.
Qed.

Lemma f64_percentile_of_constant (a : list Q) (x v q : Q) :
  a <> [] -> (forall s, In s a -> s = x) -> rnd x = Rat v ->
  (Z.of_nat (length a) < 2 ^ 53)%Z -> 0 <= q -> q <= 1 ->
  f64.percentile_of a q = Rat v.
Proof.
  intros Hne Hall Hr Hlen Hq0 Hq1.
  assert (Hn : (0 < length a)%nat) by (destruct a; [congruence|simpl; lia]).
  unfold f64.percentile_of. cbv zeta.
  rewrite (sort_constant a x Hall).
  set (N := (length a - 1)%nat).
  destruct (is_double_nat N) as [w [Hw Hwq]]; [lia|].
  assert (HN0 : 0 <= inject_Z (Z.of_nat N))
    by (change 0 with (inject_Z 0); rewrite <- Zle_Qle; lia).
  rewrite Hw. change (f64.mul (Rat w) (Rat q)) with (rnd (w * q)).
  destruct (rnd_bounded (w * q) (inject_Z (Z.of_nat N)))
    as [virtual [Hvi [Hv0 HvN]]].
  { rewrite Hwq. apply Qmult_le_0_compat; assumption. }
  { rewrite Hwq. nra. }
  { apply is_double_int. lia. }
  rewrite Hvi.
  destruct (Qle_bool (inject_Z (Z.of_nat N)) virtual) eqn:Above.
  - rewrite item_replicate by lia.
    change (f64.sub (Rat virtual) (Rat (inject_Z (-1))))
      with (rnd (virtual + - inject_Z (-1))).
    destruct (rnd_bounded (virtual + - inject_Z (-1))
                (inject_Z (Z.of_nat (length a))))
      as [g [Hg [Hg0 Hgn]]].
    { change (inject_Z (-1)) with (- (1)). lra. }
    { change (inject_Z (-1)) with (- (1)).
      replace (Z.of_nat (length a)) with (Z.of_nat N + 1)%Z by lia.
      rewrite inject_Z_plus. change (inject_Z 1) with 1. lra. }
    { apply is_double_int. lia. }
    rewrite Hg.
    destruct (rnd_one_minus_finite g (Z.of_nat (length a)) Hg0 Hgn)
      as [u Hu]; [lia|].
    apply (f64_lerp_same x v g u Hr Hu).
  - apply Qle_bool_false in Above.
    destruct (Qfloor_bounds virtual) as [Flo Fhi].
    assert (F0 : (0 <= Qfloor virtual)%Z).
    { change 0%Z with (Qfloor 0). apply Qfloor_resp_le. exact Hv0. }
    assert (FN : (Qfloor virtual < Z.of_nat N)%Z).
    { rewrite Zlt_Qlt. lra. }
    rewrite !item_replicate by lia.
    change (f64.sub (Rat virtual) (Rat (inject_Z (Qfloor virtual))))
      with (rnd (virtual + - inject_Z (Qfloor virtual))).
    destruct (rnd_bounded (virtual + - inject_Z (Qfloor virtual)) 1)
      as [g [Hg [Hg0 Hg1]]];
      [lra|lra|apply (is_double_int 1); lia|].
    rewrite Hg.
    destruct (rnd_one_minus_finite g 1 Hg0 Hg1) as [u Hu]; [lia|].
    apply (f64_lerp_same x v g u Hr Hu).
Qed.

End DoubleConstant.

(** X6: when all samples are one double [x] that is not negative (and
    below [2^1023], so that [x + x] is finite), the median, maximum,
    minimum and the two percentile lines all show the time [x] and the
    speed for [x].  The average line need not: five samples of 0.105 ms
    have the average 0.11 ms next to a median of 0.10 ms. *)
Theorem constant_samples_report
    (a : list Q) (x : Q) (batch_size : Z) (n : float) :
  a <> [] -> (forall s, In s a -> s = x) ->
  is_double x -> (0 <= x)%Q -> (x < pow2 1023)%Q ->
  Z.of_nat (length a) < 2 ^ 53 ->
  f64.of_int (1000 * batch_size) = Ok n ->
  (fst (f64.print_statistics a batch_size []) !! 2%nat =
     Some (f64.stat_line "median time: " " ms; median speed: " " fps"
             n (Rat x)) /\
   fst (f64.print_statistics a batch_size []) !! 3%nat =
     Some (f64.stat_line "max time: " " ms; min speed: " " fps" n (Rat x)) /\
   fst (f64.print_statistics a batch_size []) !! 4%nat =
     Some (f64.stat_line "min time: " " ms; max speed: " " fps" n (Rat x)) /\
   fst (f64.print_statistics a batch_size []) !! 5%nat =
     Some (f64.stat_line "time percentile 90: "
             " ms; speed percentile 90: " " fps" n (Rat x)) /\
   fst (f64.print_statistics a batch_size []) !! 6%nat =
     Some (f64.stat_line "time percentile 50: "
             " ms; speed percentile 50: " " fps" n (Rat x))) /\
  fst (f64.print_statistics (replicate 5 (f64.literal 0.105)) 1 []) !! 1%nat =
    Some "average time: 0.11 ms; average speed: 9523.81 fps"%string /\
  fst (f64.print_statistics (replicate 5 (f64.literal 0.105)) 1 []) !! 2%nat =
    Some "median time: 0.10 ms; median speed: 9523.81 fps"%string.
Proof.
  intros Hne Hall [v [Hr Hv]] H0 Hlt Hlen Hn.
  split; [|split; vm_compute; reflexivity].
  assert (Hmax : the_max a = x) by (apply Hall, the_max_In, Hne).
  assert (Hmin : the_min a = x) by (apply Hall, the_min_In, Hne).
  pose proof (f64_median_of_constant a x v Hne Hall Hr Hv H0 Hlt) as Hmed.
  assert (H90 : f64.percentile_of a (f64.literal (9 # 10)) = Rat v).
  { apply (f64_percentile_of_constant a x v); try assumption;
      vm_compute; intros E; discriminate E. }
  assert (H50 : f64.percentile_of a (f64.literal (1 # 2)) = Rat v).
  { apply (f64_percentile_of_constant a x v); try assumption;
      vm_compute; intros E; discriminate E. }
  destruct a as [|y l]; [congruence|].
  rewrite (f64_print_statistics_nonempty y l batch_size n [] Hn).
  simpl fst. rewrite ?app_nil_l. unfold f64.report.
  rewrite Hmed, Hmax, Hmin, H90, H50. simpl lookup.
  repeat split; try reflexivity; f_equal; apply f64_stat_line_comp; exact Hv.
Qed.

Lemma constant_samples_report_witness :
  fst (f64.print_statistics (replicate 3 (f64.literal 12.8)) 3 []) !! 2%nat =
  Some (f64.stat_line "median time: " " ms; median speed: " " fps"
          (Rat 3000) (Rat (f64.literal 12.8))).
Proof.
  apply (constant_samples_report (replicate 3 (f64.literal 12.8))
           (f64.literal 12.8) 3 (Rat 3000)).
  - discriminate.
  - intros s Hs. simpl in Hs. destruct Hs as [<-|[<-|[<-|[]]]]; reflexivity.
  - eexists. split; vm_compute; reflexivity.
  - vm_compute. intros E. discriminate E.
  - vm_compute. reflexivity.
  - vm_compute. reflexivity.
  - vm_compute. reflexivity.
Defined.

(** * The median between the extremes *)

Section DoubleBetween.

Local Open Scope Q_scope.

Lemma firstn_2_skipn (l : list Q) (k : nat) :
  (S k < length l)%nat ->
  firstn 2 (skipn k l) = [np.item l k; np.item l (S k)].
Proof.
  unfold np.item. revert k. induction l as [|x l IH]; intros k Hk.
  - simpl in Hk. lia.
  - destruct k as [|k].
    + destruct l as [|y l]; [simpl in Hk; lia|reflexivity].
    + simpl skipn. rewrite IH by (simpl in Hk; lia). reflexivity.
Qed.

(** A rounded value between two doubles lies between them. *)
Lemma rnd_between (lo y hi : Q) :
  0 <= lo -> lo <= y -> y <= hi -> is_double lo -> is_double hi ->
  exists m, rnd y = Rat m /\ lo <= m /\ m <= hi.
Proof.
  intros H0 Hlo Hhi [vl [Hl Hlq]] [vh [Hh Hhq]].
  pose proof (rnd_mono lo y H0 Hlo) as M1. rewrite Hl in M1.
  pose proof (rnd_mono y hi ltac:(lra) Hhi) as M2. rewrite Hh in M2.
  destruct (rnd y) as [m|[|]|]; simpl in *; try contradiction.
  exists m. split; [reflexivity|]. split; lra.
Qed.

(** The mean of two doubles lies between them, short of overflow. *)
Lemma f64_mean_pair_between (x y : Q) :
  0 <= x -> x <= y -> y < pow2 1023 -> is_double x -> is_double y ->
  exists m, f64.mean [Rat x; Rat y] = Rat m /\ x <= m /\ m <= y.
Proof.
  intros H0 Hxy Hlt Hx Hy.
  pose proof (is_double_twice x H0 ltac:(lra) Hx) as Hxx.
  pose proof (is_double_twice y ltac:(lra) Hlt Hy) as Hyy.
  destruct Hx as [vx [Hvx Hvxq]].
  unfold f64.mean, f64.sum. simpl f64.pairwise_sum.
  change (f64.add (Rat 0) (Rat x)) with (rnd (0 + x)).
  rewrite (rnd_comp (0 + x) x) by ring. rewrite Hvx.
  change (f64.add (Rat vx) (Rat y)) with (rnd (vx + y)).
  destruct (rnd_between (x + x) (vx + y) (y + y)) as [s [Hs [Hs1 Hs2]]];
    [lra|lra|lra|exact Hxx|exact Hyy|].
  rewrite Hs.
  replace (f64.of_nat (length [Rat x; Rat y])) with (Rat 2)
    by (vm_compute; reflexivity).
  change (f64.div (Rat s) (Rat 2)) with (rnd (s / 2)).
  apply rnd_between; try assumption.
  - apply Qle_shift_div_l; lra.
  - apply Qle_shift_div_r; lra.
  - exists vx. split; assumption.
Qed.

Lemma f64_median_of_between (a : list Q) :
  a <> [] ->
  (forall s, In s a -> 0 <= s /\ s < pow2 1023 /\ is_double s) ->
  exists m, f64.median_of a = Rat m /\ the_min a <= m /\ m <= the_max a.
Proof.
  intros Hne Hall.
  assert (Hn : (0 < length a)%nat) by (destruct a; [congruence|simpl; lia]).
  pose proof (Nat.div_lt (length a) 2 ltac:(lia) ltac:(lia)) as Hhalf.
  unfold f64.median_of. cbv zeta.
  destruct (Nat.even (length a)) eqn:Ev.
  - assert (H2 : (2 <= length a)%nat).
    { destruct (length a) as [|[|k]]; [lia|discriminate Ev|lia]. }
    assert (H1 : (1 <= length a / 2)%nat)
      by (apply Nat.div_le_lower_bound; lia).
    rewrite firstn_2_skipn by (rewrite sort_length; lia).
    replace (S (length a / 2 - 1)) with (length a / 2)%nat by lia.
    set (i := (length a / 2 - 1)%nat). set (j := (length a / 2)%nat).
    pose proof (item_sort_In a i ltac:(lia)) as Ii.
    pose proof (item_sort_In a j ltac:(lia)) as Ij.
    destruct (Hall _ Ii) as [Hi0 [_ Hid]].
    destruct (Hall _ Ij) as [_ [Hjlt Hjd]].
    pose proof (item_sort_le a i j ltac:(lia) ltac:(lia)) as Hij.
    destruct (f64_mean_pair_between _ _ Hi0 Hij Hjlt Hid Hjd)
      as [m [Hm [Hm1 Hm2]]].
    exists m. split; [exact Hm|].
    pose proof (the_min_le a _ Ii). pose proof (the_max_ge a _ Ij).
    split; lra.
  - rewrite firstn_1_skipn by (rewrite sort_length; lia).
    set (j := (length a / 2)%nat).
    pose proof (item_sort_In a j ltac:(lia)) as Ij.
    destruct (Hall _ Ij) as [_ [_ [v [Hv Hvq]]]].
    exists v. split; [apply f64_mean_singleton; assumption|].
    pose proof (the_min_le a _ Ij). pose proof (the_max_ge a _ Ij).
    rewrite Hvq. split; assumption.
Qed.

End DoubleBetween.

(** X1: for samples that are doubles, not negative and below [2^1023],
    the median that [print_statistics] computes lies between the minimum
    and the maximum, and so do the median time and, for a positive
    numerator, the median speed as they are shown.  The average need not:
    five samples of 0.105 ms are shown with the average 0.11 ms above the
    maximum 0.10 ms. *)
Theorem median_between_min_and_max (a : list Q) (n : Q) :
  a <> [] ->
  (forall s, In s a -> (0 <= s)%Q /\ (s < pow2 1023)%Q /\ is_double s) ->
  (0 < n)%Q ->
  (exists m,
     f64.median_of a = Rat m /\
     (the_min a <= m)%Q /\ (m <= the_max a)%Q /\
     float_le (f64.round2 (Rat (the_min a))) (f64.round2 (Rat m)) /\
     float_le (f64.round2 (Rat m)) (f64.round2 (Rat (the_max a))) /\
     float_le (f64.round2 (f64.div (Rat n) (Rat (the_max a))))
              (f64.round2 (f64.div (Rat n) (Rat m))) /\
     float_le (f64.round2 (f64.div (Rat n) (Rat m)))
              (f64.round2 (f64.div (Rat n) (Rat (the_min a))))) /\
  fst (f64.print_statistics (replicate 5 (f64.literal 0.105)) 1 []) !! 1%nat =
    Some "average time: 0.11 ms; average speed: 9523.81 fps"%string /\
  fst (f64.print_statistics (replicate 5 (f64.literal 0.105)) 1 []) !! 3%nat =
    Some "max time: 0.10 ms; min speed: 9523.81 fps"%string.
Proof.
  intros Hne Hall Hn. split; [|split; vm_compute; reflexivity].
  destruct (f64_median_of_between a Hne Hall) as [m [Hm [Hlo Hhi]]].
  destruct (Hall _ (the_min_In a Hne)) as [Hmin0 _].
  exists m. split; [exact Hm|]. split; [exact Hlo|]. split; [exact Hhi|].
  assert (Hm0 : (0 <= m)%Q) by lra.
  split; [apply round2_mono; simpl; assumption|].
  split; [apply round2_mono; simpl; assumption|].
  split.
  - apply round2_mono; [apply div_nonneg; [exact Hn|lra]|].
    apply div_antitone; assumption.
  - apply round2_mono; [apply div_nonneg; assumption|].
    apply div_antitone; assumption.
Qed.

Lemma median_between_min_and_max_witness :
  exists m,
    f64.median_of [30; 10; 40; 20]%Q = Rat m /\
    (the_min [30; 10; 40; 20] <= m)%Q /\ (m <= the_max [30; 10; 40; 20])%Q /\
    float_le (f64.round2 (Rat (the_min [30; 10; 40; 20]%Q))) (f64.round2 (Rat m)) /\
    float_le (f64.round2 (Rat m)) (f64.round2 (Rat (the_max [30; 10; 40; 20]%Q))) /\
    float_le (f64.round2 (f64.div (Rat 4000) (Rat (the_max [30; 10; 40; 20]%Q))))
             (f64.round2 (f64.div (Rat 4000) (Rat m))) /\
    float_le (f64.round2 (f64.div (Rat 4000) (Rat m)))
             (f64.round2 (f64.div (Rat 4000) (Rat (the_min [30; 10; 40; 20]%Q)))).
Proof.
  apply (median_between_min_and_max [30; 10; 40; 20]%Q 4000).
  - discriminate.
  - intros s Hs. simpl in Hs.
    destruct Hs as [<-|[<-|[<-|[<-|[]]]]];
      (split; [discriminate|
       split; [reflexivity|eexists; split; vm_compute; reflexivity]]).
  - reflexivity.
Defined.

(** * What a displayed value is *)

Section DoubleDisplay.

Local Open Scope Q_scope.

(** The integer within less than one half of a value is its rounding. *)
Lemma round_half_even_unique (z : Q) (k : Z) :
  inject_Z k - (1 # 2) < z -> z < inject_Z k + (1 # 2) ->
  round_half_even z = k.
Proof.
  intros Hlo Hhi. destruct (round_half_even_near z) as [L U].
  apply Z.le_antisymm; apply inject_Z_lt_succ; lra.
Qed.

Lemma rnd_Rat_nearest (y v : Q) : rnd y = Rat v -> v == nearest y.
Proof.
  unfold rnd. destruct (Qeq_bool y 0) eqn:E.
  - intros Hv. injection Hv as <-. apply Qeq_bool_iff in E.
    rewrite (nearest_comp y 0 E). vm_compute. reflexivity.
  - destruct (Qle_bool (pow2 1024) (Qabs (nearest y))); [discriminate|].
    intros Hv. injection Hv as <-. apply Qred_correct.
Qed.

(** The relative error of the rounding of a value in the normal range. *)
Lemma nearest_error (y : Q) :
  pow2 (-1022) <= y ->
  nearest y - y <= y * pow2 (-53) /\ y - nearest y <= y * pow2 (-53).
Proof.
  intros Hn.
  assert (Hy : 0 < y).
  { apply Qlt_le_trans with (pow2 (-1022)); [apply pow2_pos|exact Hn]. }
  destruct (ilog2_spec y Hy) as [Hlo _].
  assert (Hk : (-1022 <= ilog2 y)%Z).
  { destruct (Z_le_gt_dec (-1022) (ilog2 y)) as [H|H]; [exact H|].
    exfalso. destruct (ilog2_spec y Hy) as [_ Hhi].
    pose proof (pow2_le (ilog2 y + 1) (-1022) ltac:(lia)). lra. }
  assert (He : ulp_exp y = (ilog2 y - 52)%Z)
    by (rewrite (ulp_exp_pos y Hy); lia).
  unfold nearest. cbv zeta. rewrite He.
  set (E := pow2 (ilog2 y - 52)).
  assert (HE : 0 < E) by apply pow2_pos.
  assert (HEy : E <= y * pow2 (-52)).
  { unfold E. replace (ilog2 y - 52)%Z with (ilog2 y + -52)%Z by lia.
    rewrite pow2_plus. apply Qmult_le_compat_r; [exact Hlo|].
    apply Qlt_le_weak, pow2_pos. }
  assert (H53 : pow2 (-53) == pow2 (-52) * (1 # 2)) by reflexivity.
  set (z := y / E).
  assert (Hz : y == z * E) by (unfold z; field; lra).
  destruct (round_half_even_near z) as [L U].
  set (m := inject_Z (round_half_even z)) in *.
  assert (A1 : (m - z) * E <= (1 # 2) * E)
    by (apply Qmult_le_compat_r; lra).
  assert (A2 : (z - m) * E <= (1 # 2) * E)
    by (apply Qmult_le_compat_r; lra).
  rewrite H53. split.
  - assert (X : m * E - y == (m - z) * E) by (rewrite Hz; ring).
    rewrite X. lra.
  - assert (X : y - m * E == (z - m) * E) by (rewrite Hz; ring).
    rewrite X. lra.
Qed.

(** Dividing a number of hundredths by 100 and showing the quotient with
    two decimals gives that number back. *)
Lemma format_2f_hundredths (k : Z) :
  (0 <= k <= 2 ^ 51)%Z ->
  format_2f (f64.div (Rat (inject_Z k)) (Rat 100)) = fmt_hundredths k.
Proof.
  intros [Hk0 Hk].
  change (f64.div (Rat (inject_Z k)) (Rat 100)) with (rnd (inject_Z k / 100)).
  destruct (Z.eq_dec k 0%Z) as [->|Hne]; [reflexivity|].
  set (y := inject_Z k / 100).
  assert (Hk1 : 1 <= inject_Z k)
    by (change 1 with (inject_Z 1); rewrite <- Zle_Qle; lia).
  assert (Hk2 : inject_Z k <= inject_Z (2 ^ 51)) by (rewrite <- Zle_Qle; exact Hk).
  assert (Hy : inject_Z k == y * 100) by (unfold y; field).
  destruct (rnd_bounded y (inject_Z (2 ^ 51))) as [v [Hv _]].
  { change (inject_Z (2 ^ 51)) with 2251799813685248 in Hk2. lra. }
  { change (inject_Z (2 ^ 51)) with 2251799813685248 in *. lra. }
  { apply is_double_int. lia. }
  rewrite Hv. unfold format_2f. f_equal. unfold hundredths.
  apply rnd_Rat_nearest in Hv.
  destruct (nearest_error y) as [E1 E2].
  { apply Qle_trans with (1 # 100); [vm_compute; discriminate|lra]. }
  assert (P : pow2 (-53) == 1 # 9007199254740992) by reflexivity.
  rewrite P in E1, E2.
  change (inject_Z (2 ^ 51)) with 2251799813685248 in Hk2.
  apply round_half_even_unique; rewrite Hv; lra.
Qed.

End DoubleDisplay.

(** X10: what is shown for a value [x] from 0 to [2^44] is the number of
    hundredths nearest, ties to even, to the computed product [x * 100],
    itself a double: dividing by 100 and formatting with two decimals
    round nothing more.  The tie is judged on the rounded product, so the
    double 0.005, which lies above 5/1000, is shown as 0.00. *)
Theorem shown_value_is_rounded_product (x : Q) :
  (0 <= x)%Q -> (x <= inject_Z (2 ^ 44))%Q ->
  (exists p,
     f64.mul (Rat x) (Rat 100) = Rat p /\
     format_2f (f64.round2 (Rat x)) = fmt_hundredths (round_half_even p)) /\
  (5 # 1000 < f64.literal 0.005)%Q /\
  format_2f (f64.round2 (Rat (f64.literal 0.005))) = "0.00"%string.
Proof.
  intros H0 Hx. split; [|split; vm_compute; reflexivity].
  change (inject_Z (2 ^ 44)) with 17592186044416%Q in Hx.
  destruct (rnd_bounded (x * 100) (inject_Z (2 ^ 51))) as [p [Hp [Hp0 Hp1]]].
  { lra. }
  { change (inject_Z (2 ^ 51)) with 2251799813685248%Q. lra. }
  { apply is_double_int. lia. }
  exists p. split; [exact Hp|].
  unfold f64.round2.
  change (f64.mul (Rat x) (Rat 100)) with (rnd (x * 100)).
  rewrite Hp. simpl f64.rint.
  apply format_2f_hundredths. split.
  - rewrite <- (round_half_even_inject_Z 0).
    apply round_half_even_mono. exact Hp0.
  - rewrite <- (round_half_even_inject_Z (2 ^ 51)).
    apply round_half_even_mono. exact Hp1.
Qed.

Lemma shown_value_is_rounded_product_witness :
  exists p,
    f64.mul (Rat (f64.literal 12.8)) (Rat 100) = Rat p /\
    format_2f (f64.round2 (Rat (f64.literal 12.8))) =
    fmt_hundredths (round_half_even p).
Proof.
  apply (shown_value_is_rounded_product (f64.literal 12.8)).
  - vm_compute. intros E. discriminate E.
  - vm_compute. intros E. discriminate E.
Defined.
